(** * sg-bucket: view post-processing ([views.go])

    A shallow embedding of [ProcessViewResult], [ReduceViewResult],
    [keyPrefix], [ReduceFunc] and the [sort.Interface] methods [Len],
    [Swap] and [Less], together with the pieces of the Go
    runtime and of the package they call ([sort.Search], the JSON
    collator), and the properties of the query pipeline proved on it.

    Conventions.
    - A Go [interface{}] holding a decoded JSON value or a query parameter
      is a [value]; the dynamic types are the ones the file switches on.
    - Go's [float64] is modelled by [Z]: every number the development
      computes with is an integer (row counts, sums of integers), on which
      [float64] arithmetic is exact below 2^53.
    - Go's [int] is a 64-bit integer kept in [Z]; the conversion
      [int(uint64)] is written with its wrap-around.
    - A call either returns or panics: [outcome].
    - The bucket is only read: [GetRaw] is a function of the key.
    - A slice has no spare capacity: its length bounds a slice expression. *)

From Stdlib Require Import ZArith Lia Bool Ascii String List.
From stdpp Require Import base option list strings gmap.

Local Open Scope Z_scope.

(** ** Values *)

Module Value.

Unset Elimination Schemes.

(** The dynamic types of an [interface{}] that reach this code. *)
Inductive value : Type :=
| VNil                     (* the nil interface, JSON null *)
| VBool (b : bool)         (* bool *)
| VUint (n : Z)            (* uint64: [limit], [group_level] *)
| VNum (x : Z)             (* float64 *)
| VStr (s : string)        (* string *)
| VArr (l : list value)    (* []interface{} *)
| VObj (m : list (string * value)).
                           (* map[string]interface{}, by ascending key *)

Set Elimination Schemes.

Section Induction.
Variable P : value -> Prop.
Hypothesis Hnil : P VNil.
Hypothesis Hbool : forall b, P (VBool b).
Hypothesis Huint : forall n, P (VUint n).
Hypothesis Hnum : forall x, P (VNum x).
Hypothesis Hstr : forall s, P (VStr s).
Hypothesis Harr : forall l, Forall P l -> P (VArr l).
Hypothesis Hobj : forall m, Forall (fun kv => P (snd kv)) m -> P (VObj m).

Fixpoint value_ind (v : value) : P v :=
  match v with
  | VNil => Hnil
  | VBool b => Hbool b
  | VUint n => Huint n
  | VNum x => Hnum x
  | VStr s => Hstr s
  | VArr l =>
      Harr l ((fix all (l : list value) : Forall P l :=
                 match l with
                 | [] => @List.Forall_nil _ P
                 | x :: l' => @List.Forall_cons _ P x l' (value_ind x) (all l')
                 end) l)
  | VObj m =>
      Hobj m ((fix all (m : list (string * value))
                 : Forall (fun kv => P (snd kv)) m :=
                 match m with
                 | [] => @List.Forall_nil _ _
                 | kv :: m' => @List.Forall_cons _ _ kv m' (value_ind (snd kv)) (all m')
                 end) m)
  end.
End Induction.

(** [x == nil] on an interface value. *)
Definition is_nil (v : value) : bool :=
  match v with VNil => true | _ => false end.

End Value.
Export Value.

(** ** The collator *)

Module Collator.

(** Sequencing of two comparisons: the first one that is not [Eq] decides. *)
Definition then_cmp (c : comparison) (d : comparison) : comparison :=
  match c with Eq => d | _ => c end.

Fixpoint str_cmp (s t : string) : comparison :=
  match s, t with
  | EmptyString, EmptyString => Eq
  | EmptyString, String _ _ => Lt
  | String _ _, EmptyString => Gt
  | String a s', String b t' =>
      then_cmp (N.compare (N_of_ascii a) (N_of_ascii b)) (str_cmp s' t')
  end.

(** Rule 1 of the collation order:
    null < false < true < number < string < array < object. *)
Definition collationType (v : value) : Z :=
  match v with
  | VNil => 0
  | VBool false => 1
  | VBool true => 2
  | VUint _ | VNum _ => 3
  | VStr _ => 4
  | VArr _ => 5
  | VObj _ => 6
  end.

(** The number a numeric value stands for. *)
Definition number_of (v : value) : Z :=
  match v with VUint n => n | VNum x => x | _ => 0 end.

(** Element-wise comparison of two sequences: the first pair that differs
    decides, and a proper prefix comes first. *)
Definition lex_cmp {A : Type} (c : A -> A -> comparison)
    : list A -> list A -> comparison :=
  fix lex (l1 l2 : list A) {struct l1} : comparison :=
    match l1, l2 with
    | [], [] => Eq
    | [], _ :: _ => Lt
    | _ :: _, [] => Gt
    | x :: l1', y :: l2' => then_cmp (c x y) (lex l1' l2')
    end.

(** Modelled from the spec: [JSONCollator.Collate] is declared in a file
    of the package that is not part of the sources at hand.  The
    comparison follows section 4.1: type precedence first, numbers
    numerically, strings by code point, arrays element-wise with a proper
    prefix first, objects entry by entry (key, then value) in key order
    with a proper prefix first. *)
Fixpoint collate_cmp (a b : value) {struct a} : comparison :=
  match a, b with
  | VStr s, VStr t => str_cmp s t
  | VArr l1, VArr l2 => lex_cmp collate_cmp l1 l2
  | VObj m1, VObj m2 =>
      lex_cmp (fun e1 e2 =>
                 then_cmp (str_cmp (fst e1) (fst e2))
                          (collate_cmp (snd e1) (snd e2))) m1 m2
  | _, _ =>
      then_cmp (collationType a ?= collationType b)
               (number_of a ?= number_of b)
  end.

(** [Collate(a, b)], in {-1, 0, +1}. *)
Definition Collate (a b : value) : Z :=
  match collate_cmp a b with Lt => -1 | Eq => 0 | Gt => 1 end.

End Collator.
Export Collator.

(** ** The Go runtime: panics, integer conversion, [sort.Search] *)

Module GoRuntime.

(** A call returns a value or panics. *)
Inductive outcome (A : Type) : Type :=
| Return (a : A)
| Panic.
Arguments Return {A} a.
Arguments Panic {A}.

#[export] Instance outcome_ret : MRet outcome := fun A a => Return a.
#[export] Instance outcome_bind : MBind outcome := fun A B k m =>
  match m with Return a => k a | Panic => Panic end.

(** An [error] value; the ones built here come from [fmt.Errorf]. *)
Record error : Type := Errorf { message : string }.

(** [int(u)] for [u : uint64] on a 64-bit platform. *)
Definition int_of_uint64 (u : Z) : Z :=
  let w := u mod 2 ^ 64 in
  if w <? 2 ^ 63 then w else w - 2 ^ 64.

(** [float64(n)] for a slice length [n]. *)
Definition float64_of_len (n : nat) : Z := Z.of_nat n.

(** The loop of [sort.Search]:
    [for i < j { h := int(uint(i+j) >> 1); if !f(h) { i = h + 1 } else { j = h } }].
    Each turn shrinks [j - i], so [j - i] turns are enough; [i + j] is
    the sum of two slice indices and fits a [uint]. *)
Fixpoint search_loop (turns : nat) (f : nat -> bool) (i j : nat) : nat :=
  match turns with
  | O => i
  | S turns' =>
      if (i <? j)%nat then
        let h := Nat.div2 (i + j) in
        if negb (f h) then search_loop turns' f (h + 1)%nat j
        else search_loop turns' f i h
      else i
  end.

(** [sort.Search(n, f)]: [i, j := 0, n], the loop, [return i]. *)
Definition Search (n : nat) (f : nat -> bool) : nat :=
  search_loop n f 0%nat n.

End GoRuntime.
Export GoRuntime.

(** ** The view types and the storage collaborator *)

Module Types.

(** Modelled from the spec: [ViewRow] is declared outside the sources at
    hand; section 3 gives its fields, and [views.go] reads and writes
    [ID], [Key], [Value] and [Doc], the last one a pointer to an
    [interface{}]. *)
Record ViewRow : Type := mkRow {
  ID : string;
  Key : value;
  Value : value;
  Doc : option value
}.

(** Modelled from the spec: [ViewResult] is declared outside the sources
    at hand; section 3 gives the two fields the pipeline touches. *)
Record ViewResult : Type := mkResult {
  TotalRows : Z;
  Rows : list ViewRow
}.

Definition set_Rows (result : ViewResult) (rows : list ViewRow) : ViewResult :=
  {| TotalRows := TotalRows result; Rows := rows |}.

Definition set_TotalRows (result : ViewResult) (n : Z) : ViewResult :=
  {| TotalRows := n; Rows := Rows result |}.

Definition set_Key (row : ViewRow) (k : value) : ViewRow :=
  {| ID := ID row; Key := k; Value := Value row; Doc := Doc row |}.

Definition set_Doc (row : ViewRow) (d : value) : ViewRow :=
  {| ID := ID row; Key := Key row; Value := Value row; Doc := Some d |}.

(** Modelled from the spec: the [Bucket] interface is declared outside the
    sources at hand; section 6 gives the one method used here, [GetRaw(k)],
    which yields the raw bytes, a CAS and an error. *)
Record Bucket : Type := mkBucket {
  GetRaw : string -> list Byte.byte * Z * option error
}.

(** [params map[string]interface{}]; [None] is the nil map. *)
Definition Params : Type := option (gmap string value).

(** [params[k]]: the zero value (a nil interface) when [k] is absent, also
    on the nil map. *)
Definition param (params : Params) (k : string) : value :=
  match params with
  | Some m => default VNil (m !! k)
  | None => VNil
  end.

(** [v, ok := x.(bool)] and [v, ok := x.(uint64)]. *)
Definition as_bool (x : value) : option bool :=
  match x with VBool b => Some b | _ => None end.
Definition as_uint64 (x : value) : option Z :=
  match x with VUint n => Some n | _ => None end.

End Types.
Export Types.

(** ** [views.go] *)

Module Views.

(** *** [ReduceFunc] and what it calls *)

(** Modelled from the spec: [collationToFloat64] is declared next to the
    collator, outside the sources at hand.  It is the collator's numeric
    extraction (section 4.4); on a value that is no number it produces no
    result, a panic here. *)
Definition collationToFloat64 (v : value) : outcome Z :=
  match v with
  | VUint n => Return n
  | VNum x => Return x
  | _ => Panic
  end.

(** A reduce function: from a slice of rows to a row and an error. *)
Definition reduceFun : Type := list ViewRow -> outcome (ViewRow + error).

(** [&ViewRow{Value: v}]: every other field has its zero value. *)
Definition rowOfValue (v : value) : ViewRow :=
  {| ID := ""; Key := VNil; Value := v; Doc := None |}.

Definition count_fun : reduceFun := fun rows =>
  Return (inl (rowOfValue (VNum (float64_of_len (length rows))))).

(** [total := float64(0); for _, row := range rows { total += ... }]. *)
Fixpoint sum_loop (total : Z) (rows : list ViewRow) : outcome Z :=
  match rows with
  | [] => Return total
  | row :: rows' =>
      x ← collationToFloat64 (Value row);
      sum_loop (total + x) rows'
  end.

Definition sum_fun : reduceFun := fun rows =>
  total ← sum_loop 0 rows;
  Return (inl (rowOfValue (VNum total))).

Definition errUnsupportedReduce : error :=
  Errorf "Sgbucket only supports _count and _sum reduce functions".

Definition ReduceFunc (reduceFunction : string) : reduceFun + error :=
  if String.eqb reduceFunction "_count" then inl count_fun
  else if String.eqb reduceFunction "_sum" then inl sum_fun
  else inr errUnsupportedReduce.

(** *** [keyPrefix] *)

(** [key.([]interface{})[0:groupLevel]]: the assertion panics on a key
    that is no array, the slice expression on a bound outside the slice.
    (Go accepts an upper bound up to the capacity; the model has no
    capacity and takes the length for it.) *)
Definition keyPrefix (groupLevel : Z) (key : value) : outcome value :=
  match key with
  | VArr l =>
      if (0 <=? groupLevel) && (groupLevel <=? Z.of_nat (length l))
      then Return (VArr (take (Z.to_nat groupLevel) l))
      else Panic
  | _ => Panic
  end.

(** *** [ReduceViewResult] *)

(** Lines 128-133: the group level.  The assertions [.(bool)] and
    [.(uint64)] have no [ok] result and panic on another dynamic type. *)
Definition groupLevelOf (params : Params) : outcome Z :=
  let fromLevel :=
    if negb (is_nil (param params "group_level")) then
      match param params "group_level" with
      | VUint n => Return (int_of_uint64 n)
      | _ => Panic
      end
    else Return 0 in
  if negb (is_nil (param params "group")) then
    match param params "group" with
    | VBool true => Return (-1)
    | VBool false => fromLevel
    | _ => Panic
    end
  else fromLevel.

(** The projection of a row key: the whole key under [group=true], its
    prefix otherwise. *)
Definition groupKey (groupLevel : Z) (key : value) : outcome value :=
  if negb (groupLevel =? -1) then keyPrefix groupLevel key else Return key.

(** Lines 143-163: the scan.  The state is [key], [inRows], [outRows];
    the loop ends with that state, or returns [outErr] early. *)
Fixpoint groupLoop (f : reduceFun) (groupLevel : Z) (rows : list ViewRow)
    (key : value) (inRows outRows : list ViewRow)
    : outcome (value * list ViewRow * list ViewRow + error) :=
  match rows with
  | [] => Return (inl (key, inRows, outRows))
  | row :: rows' =>
      inKey ← groupKey groupLevel (Key row);
      let collated := Collate inKey key in
      if collated =? 0 then
        groupLoop f groupLevel rows' key (inRows ++ [row]) outRows
      else
        r ← f inRows;
        match r with
        | inr outErr => Return (inr outErr)
        | inl outRow =>
            groupLoop f groupLevel rows' inKey [row]
              (outRows ++ [set_Key outRow key])
        end
  end.

(** [ReduceViewResult(reduceFunction, params, result)]: the result after
    the call and the error returned. *)
Definition ReduceViewResult (reduceFunction : string) (params : Params)
    (result : ViewResult) : outcome (ViewResult * option error) :=
  match ReduceFunc reduceFunction with
  | inr compileErr => Return (result, Some compileErr)
  | inl f =>
      groupLevel ← groupLevelOf params;
      if negb (groupLevel =? 0) then
        match Rows result with
        | [] => Panic                        (* result.Rows[0] *)
        | row0 :: _ =>
            key ← groupKey groupLevel (Key row0);
            st ← groupLoop f groupLevel (Rows result) key [] [];
            match st with
            | inr outErr => Return (result, Some outErr)
            | inl (key, inRows, outRows) =>
                r ← f inRows;
                match r with
                | inr outErr => Return (result, Some outErr)
                | inl outRow =>
                    Return (set_Rows result (outRows ++ [set_Key outRow key]),
                            None)
                end
            end
        end
      else
        r ← f (Rows result);
        match r with
        | inr err => Return (result, Some err)
        | inl row => Return (set_Rows result [row], None)
        end
  end.

(** *** [ProcessViewResult] *)

(** Lines 32-47. *)
Record options : Type := mkOptions {
  includeDocs : bool;
  limit : Z;
  reverse : bool;
  reduce : bool
}.

Definition readOptions (params : Params) : options :=
  match params with
  | None =>
      {| includeDocs := false; limit := 0; reverse := false; reduce := true |}
  | Some _ =>
      {| includeDocs := default false (as_bool (param params "include_docs"));
         limit := match as_uint64 (param params "limit") with
                  | Some plimit => int_of_uint64 plimit
                  | None => 0
                  end;
         reverse := default false (as_bool (param params "reverse"));
         reduce := default true (as_bool (param params "reduce")) |}
  end.

(** Lines 54-70: the effective [startkey], [endkey] and [inclusiveEnd]. *)
Definition rangeOf (params : Params) : value * value * bool :=
  let startkey := param params "startkey" in
  let startkey := if is_nil startkey then param params "start_key" else startkey in
  let endkey := param params "endkey" in
  let endkey := if is_nil endkey then param params "end_key" else endkey in
  let key := param params "key" in
  if negb (is_nil key) then (key, key, true)
  else (startkey, endkey, default true (as_bool (param params "inclusive_end"))).

(** The closure handed to [sort.Search]: [Collate(Rows[i].Key, k) > bound].
    [Search] only calls it below [len(Rows)]. *)
Definition above (bound : Z) (k : value) (rows : list ViewRow) (i : nat) : bool :=
  match rows !! i with
  | Some row => bound <? Collate (Key row) k
  | None => false
  end.

(** Lines 74-79. *)
Definition trimStart (startkey : value) (rows : list ViewRow) : list ViewRow :=
  if negb (is_nil startkey) then
    let i := Search (length rows)
               (fun i => match rows !! i with
                         | Some row => 0 <=? Collate (Key row) startkey
                         | None => false
                         end) in
    drop i rows
  else rows.

(** Lines 81-83. *)
Definition applyLimit (limit : Z) (rows : list ViewRow) : list ViewRow :=
  if (0 <? limit) && (limit <? Z.of_nat (length rows))
  then take (Z.to_nat limit) rows
  else rows.

(** Lines 85-94. *)
Definition trimEnd (endkey : value) (inclusiveEnd : bool)
    (rows : list ViewRow) : list ViewRow :=
  if negb (is_nil endkey) then
    let limit := if negb inclusiveEnd then -1 else 0 in
    let i := Search (length rows) (above limit endkey rows) in
    take i rows
  else rows.

(** Lines 112-120: the reduction, when asked for, and the row count. *)
Definition reduceStage (reduce : bool) (reduceFunction : string)
    (params : Params) (result : ViewResult)
    : outcome (ViewResult * option error) :=
  reduced ←
    (if reduce && negb (String.eqb reduceFunction "")
     then ReduceViewResult reduceFunction params result
     else Return (result, None));
  match reduced with
  | (result, Some err) => Return (result, Some err)
  | (result, None) =>
      Return (set_TotalRows result (Z.of_nat (length (Rows result))), None)
  end.

Definition errReverse : error :=
  Errorf "Reverse is not supported yet, sorry".

Section Inliner.
(** [json.Unmarshal(raw, &parsedDoc)] into a nil interface; its error is
    dropped by the caller, [parsedDoc] is whatever the decoder left. *)
Variable unmarshal : list Byte.byte -> value.

(** Lines 97-108.  The rows are pointers shared with the input slice:
    [newRows[i].Doc = ...] writes the row itself, so the rows before a
    failing fetch carry their document also in the slice that is
    returned with the error (every slot is taken to point to a row of
    its own).  The result is the rows as they stand and the error, if
    any. *)
Fixpoint inlineDocs (bucket : Bucket) (rows : list ViewRow)
    : list ViewRow * option error :=
  match rows with
  | [] => ([], None)
  | row :: rows' =>
      let '(raw, _, err) := GetRaw bucket (ID row) in
      match err with
      | Some e => (row :: rows', Some e)
      | None =>
          let parsedDoc := unmarshal raw in
          let '(done, e) := inlineDocs bucket rows' in
          (set_Doc row parsedDoc :: done, e)
      end
  end.

(** [ProcessViewResult(result, params, bucket, reduceFunction)]. *)
Definition ProcessViewResult (result : ViewResult) (params : Params)
    (bucket : Bucket) (reduceFunction : string)
    : outcome (ViewResult * option error) :=
  let opts := readOptions params in
  if reverse opts then Return (result, Some errReverse)
  else
    let '(startkey, endkey, inclusiveEnd) := rangeOf params in
    let result := set_Rows result (trimStart startkey (Rows result)) in
    let result := set_Rows result (applyLimit (limit opts) (Rows result)) in
    let result := set_Rows result (trimEnd endkey inclusiveEnd (Rows result)) in
    let inlined :=
      if includeDocs opts then
        let '(rows, err) := inlineDocs bucket (Rows result) in
        (set_Rows result rows, err)
      else (result, None) in
    match inlined with
    | (result, Some err) => Return (result, Some err)
    | (result, None) => reduceStage (reduce opts) reduceFunction params result
    end.
End Inliner.

End Views.
Export Views.

(** ** The specification's vocabulary

    Definitions that follow the words of the specification, to be compared
    with the functions above. *)

Module Spec.

(** "[Rows] is sorted ascending by [Key] under the Collator". *)
Fixpoint sortedRows (rows : list ViewRow) : bool :=
  match rows with
  | [] => true
  | row :: rows' =>
      match rows' with
      | [] => true
      | next :: _ => (Collate (Key row) (Key next) <=? 0) && sortedRows rows'
      end
  end.

(** "The first index [i] such that ...": a scan from the left; the length
    when no row qualifies. *)
Fixpoint firstIndex (p : ViewRow -> bool) (rows : list ViewRow) : nat :=
  match rows with
  | [] => O
  | row :: rows' => if p row then O else S (firstIndex p rows')
  end.

(** "[Collate(Rows[i].Key, startkey) >= 0]". *)
Definition fromStart (startkey : value) (row : ViewRow) : bool :=
  0 <=? Collate (Key row) startkey.

(** "[Collate(Rows[i].Key, endkey) > threshold], where [threshold = 0]
    when [inclusiveEnd] is true and [-1] when false". *)
Definition threshold (inclusiveEnd : bool) : Z :=
  if inclusiveEnd then 0 else -1.
Definition pastEnd (endkey : value) (inclusiveEnd : bool) (row : ViewRow) : bool :=
  threshold inclusiveEnd <? Collate (Key row) endkey.

(** "Drop everything before [i]" when a start key is present. *)
Definition dropBeforeStart (startkey : value) (rows : list ViewRow) : list ViewRow :=
  if is_nil startkey then rows
  else drop (firstIndex (fromStart startkey) rows) rows.

(** "Truncate to at most [limit] rows" when [limit > 0]. *)
Definition atMost (limit : Z) (rows : list ViewRow) : list ViewRow :=
  if 0 <? limit then take (Z.to_nat limit) rows else rows.

(** "Truncate to [[0, i)]" when an end key is present. *)
Definition cutAtEnd (endkey : value) (inclusiveEnd : bool)
    (rows : list ViewRow) : list ViewRow :=
  if is_nil endkey then rows
  else take (firstIndex (pastEnd endkey inclusiveEnd) rows) rows.

(** The rows between the boundaries: at or after the start key, and not
    past the end key. *)
Definition inRange (startkey endkey : value) (inclusiveEnd : bool)
    (row : ViewRow) : bool :=
  (is_nil startkey || fromStart startkey row)
  && (is_nil endkey || negb (pastEnd endkey inclusiveEnd row)).

(** The grouped scan over rows paired with their projected keys:
    "maintain a running group key and an accumulator of rows with that
    group key; whenever the next row's projected key differs, close the
    current group and start a new group with the differing row"; "the
    final open group is always closed and emitted". *)
Fixpoint scanGroups (key : value) (acc : list (value * ViewRow))
    (rest : list (value * ViewRow)) : list (value * list (value * ViewRow)) :=
  match rest with
  | [] => [(key, acc)]
  | (pk, row) :: rest' =>
      if Collate pk key =? 0 then scanGroups key (acc ++ [(pk, row)]) rest'
      else (key, acc) :: scanGroups pk [(pk, row)] rest'
  end.

(** The groups of a non-empty sequence; the first group key is the first
    row's projected key. *)
Definition keyGroups (prs : list (value * ViewRow))
    : list (value * list (value * ViewRow)) :=
  match prs with
  | [] => []
  | (pk, _) :: _ => scanGroups pk [] prs
  end.

(** The projected keys of the rows, in order. *)
Fixpoint projectKeys (groupLevel : Z) (rows : list ViewRow)
    : outcome (list (value * ViewRow)) :=
  match rows with
  | [] => Return []
  | row :: rows' =>
      pk ← groupKey groupLevel (Key row);
      prs ← projectKeys groupLevel rows';
      Return ((pk, row) :: prs)
  end.

(** "Invoke the reduce function on the accumulated rows, set the output
    row's [Key] to the group key, append to the output sequence", group
    after group. *)
Fixpoint emitGroups (f : reduceFun) (groups : list (value * list (value * ViewRow)))
    : outcome (list ViewRow + error) :=
  match groups with
  | [] => Return (inl [])
  | (key, members) :: groups' =>
      r ← f (map snd members);
      match r with
      | inr e => Return (inr e)
      | inl outRow =>
          out ← emitGroups f groups';
          match out with
          | inr e => Return (inr e)
          | inl outRows => Return (inl (set_Key outRow key :: outRows))
          end
      end
  end.

(** Two consecutive groups differ in their keys. *)
Fixpoint keysChange (groups : list (value * list (value * ViewRow))) : Prop :=
  match groups with
  | [] => True
  | (key, _) :: groups' =>
      match groups' with
      | [] => True
      | (next, _) :: _ => Collate next key <> 0 /\ keysChange groups'
      end
  end.

(** A group is not empty, takes its key from its first row, and holds only
    rows whose projected key collates equal to it. *)
Definition wellFormedGroup (g : value * list (value * ViewRow)) : Prop :=
  (fst <$> head (snd g)) = Some (fst g)
  /\ Forall (fun pr => Collate (fst pr) (fst g) = 0) (snd g).

(** The sum of the numeric values of the rows. *)
Definition sumValues (rows : list ViewRow) : Z :=
  foldr (fun row acc => number_of (Value row) + acc) 0 rows.


End Spec.
Export Spec.

(** ** Auxiliary notions for the proofs *)

Module Aux.

(** Three comparisons [x ? y], [y ? z] and [x ? z] that fit together, as
    those of a total preorder do. *)
Definition coherent (xy yz xz : comparison) : Prop :=
  (xy = Eq -> xz = yz) /\ (yz = Eq -> xz = xy)
  /\ (xy = Lt -> yz = Lt -> xz = Lt) /\ (xy = Gt -> yz = Gt -> xz = Gt).

(** A predicate on indices that, once true, stays true below [n]. *)
Definition monotone (n : nat) (f : nat -> bool) : Prop :=
  forall a b : nat, (a <= b)%nat -> (b < n)%nat -> f a = true -> f b = true.

(** The predicate of a scan, read at an index. *)
Definition at_index (p : ViewRow -> bool) (rows : list ViewRow) (i : nat) : bool :=
  match rows !! i with Some row => p row | None => false end.

(** Lines 165-170: what follows the scan, on the state it ends with. *)
Definition closeLoop (f : reduceFun)
    (st : value * list ViewRow * list ViewRow + error)
    : outcome (list ViewRow + error) :=
  match st with
  | inr outErr => Return (inr outErr)
  | inl (key, inRows, outRows) =>
      r ← f inRows;
      match r with
      | inr outErr => Return (inr outErr)
      | inl outRow => Return (inl (outRows ++ [set_Key outRow key]))
      end
  end.

(** The result and error [ReduceViewResult] returns for output rows or an
    error. *)
Definition reduced (result : ViewResult) (out : list ViewRow + error)
    : ViewResult * option error :=
  match out with
  | inl rows => (set_Rows result rows, None)
  | inr e => (result, Some e)
  end.

(** Output rows behind the ones already emitted. *)
Definition behind (outRows : list ViewRow) (out : list ViewRow + error)
    : list ViewRow + error :=
  match out with
  | inl rows => inl (outRows ++ rows)
  | inr e => inr e
  end.

(** The error of fetching the document of a row, if any. *)
Definition fetchError (bucket : Bucket) (row : ViewRow) : option error :=
  snd (GetRaw bucket (ID row)).

(** A row with its document fetched, decoded and attached. *)
Definition fetched (unmarshal : list Byte.byte -> value) (bucket : Bucket)
    (row : ViewRow) : ViewRow :=
  set_Doc row (unmarshal (fst (fst (GetRaw bucket (ID row))))).



End Aux.
Export Aux.

(** ** Sample data *)

Module Samples.

(** A row emitted for document ["doc"], with a number for key and value. *)
Definition rowK (k : Z) : ViewRow :=
  {| ID := "doc"; Key := VNum k; Value := VNum k; Doc := None |}.

(** A row with an array key. *)
Definition rowA (s : string) (n : Z) : ViewRow :=
  {| ID := "doc"; Key := VArr [VStr s; VNum n]; Value := VNum 1; Doc := None |}.

(** The output row of a reduction: a key and a number. *)
Definition rowOut (k : value) (x : Z) : ViewRow :=
  {| ID := ""; Key := k; Value := VNum x; Doc := None |}.

Definition resultOf (rows : list ViewRow) : ViewResult :=
  {| TotalRows := Z.of_nat (length rows); Rows := rows |}.

Definition rows12345 : list ViewRow := map rowK [1; 2; 3; 4; 5].
Definition rows12334 : list ViewRow := map rowK [1; 2; 3; 3; 4].
Definition rows123 : list ViewRow := map rowK [1; 2; 3].
Definition rowsAAB : list ViewRow := [rowA "a" 1; rowA "a" 2; rowA "b" 1].

(** Query parameters from a list of bindings. *)
Definition query (l : list (string * value)) : Params := Some (list_to_map l).

(** A bucket that holds the one document ["doc"]. *)
Definition oneDoc : Bucket :=
  {| GetRaw := fun k =>
       if String.eqb k "doc" then ([Byte.x7b; Byte.x7d], 1, None)
       else ([], 0, Some (Errorf "key not found")) |}.

(** A stand-in for the JSON decoder: the empty object for the two bytes
    of an empty object, null otherwise. *)
Definition decode (raw : list Byte.byte) : value :=
  match raw with
  | [Byte.x7b; Byte.x7d] => VObj []
  | _ => VNil
  end.

End Samples.
Export Samples.

From Stdlib Require Import Sorted Permutation.

(** ** [views.go], the [sort.Interface] of a [ViewResult] *)

Module SortInterface.

(** [rows[i]] for a Go [int]: a panic outside [0 <= i < len(rows)]. *)
Definition index (rows : list ViewRow) (i : Z) : outcome ViewRow :=
  if (0 <=? i) && (i <? Z.of_nat (length rows)) then
    match rows !! Z.to_nat i with
    | Some row => Return row
    | None => Panic
    end
  else Panic.

(** [rows[i] = row]: the same bounds. *)
Definition store (rows : list ViewRow) (i : Z) (row : ViewRow)
    : outcome (list ViewRow) :=
  if (0 <=? i) && (i <? Z.of_nat (length rows))
  then Return (<[Z.to_nat i := row]> rows)
  else Panic.

(** Lines 209-211. *)
Definition Len (result : ViewResult) : Z := Z.of_nat (length (Rows result)).

(** Lines 213-217:
    [temp := Rows[i]; Rows[i] = Rows[j]; Rows[j] = temp]. *)
Definition Swap (result : ViewResult) (i j : Z) : outcome ViewResult :=
  temp ← index (Rows result) i;
  atJ ← index (Rows result) j;
  rows ← store (Rows result) i atJ;
  rows ← store rows j temp;
  Return (set_Rows result rows).

(** Lines 219-221; [result.Collator] is a [JSONCollator], the collator
    of [ProcessViewResult]. *)
Definition Less (result : ViewResult) (i j : Z) : outcome bool :=
  atI ← index (Rows result) i;
  atJ ← index (Rows result) j;
  Return (Collate (Key atI) (Key atJ) <? 0).

End SortInterface.
Export SortInterface.

(** ** More vocabulary for the properties *)

Module Aux2.


(** The parameters with one more binding, and with one binding less. *)
Definition setParam (k : string) (v : value) (params : Params) : Params :=
  Some (<[k := v]> (default ∅ params)).

Definition withoutParam (k : string) (params : Params) : Params :=
  match params with
  | Some m => Some (delete k m)
  | None => None
  end.

(** The parameter names [views.go] reads. *)
Definition recognised : list string :=
  ["include_docs"; "limit"; "reverse"; "reduce"; "startkey"; "start_key";
   "endkey"; "end_key"; "key"; "inclusive_end"; "group"; "group_level"].


End Aux2.
Export Aux2.

(** ** The collation order is a total preorder *)

Module CollatorFacts.

Lemma coherent_then xy yz xz xy' yz' xz' :
  coherent xy yz xz ->
  (xy = Eq -> yz = Eq -> xz = Eq -> coherent xy' yz' xz') ->
  coherent (then_cmp xy xy') (then_cmp yz yz') (then_cmp xz xz').
Proof.
  unfold coherent. intros (H1 & H2 & H3 & H4) H.
  destruct xy, yz, xz; simpl;
    try (specialize (H1 eq_refl)); try (specialize (H2 eq_refl));
    try (specialize (H3 eq_refl eq_refl)); try (specialize (H4 eq_refl eq_refl));
    try discriminate;
    try (apply H; reflexivity);
    repeat split; congruence.
Qed.

Lemma coherent_Z (x y z : Z) : coherent (x ?= y) (y ?= z) (x ?= z).
Proof.
  unfold coherent.
  destruct (Z.compare_spec x y), (Z.compare_spec y z), (Z.compare_spec x z);
    repeat split; intros; try reflexivity; try discriminate; lia.
Qed.

Lemma coherent_N (x y z : N) : coherent (x ?= y)%N (y ?= z)%N (x ?= z)%N.
Proof.
  unfold coherent.
  destruct (N.compare_spec x y), (N.compare_spec y z), (N.compare_spec x z);
    repeat split; intros; try reflexivity; try discriminate; lia.
Qed.

Lemma then_cmp_opp c d : CompOpp (then_cmp c d) = then_cmp (CompOpp c) (CompOpp d).
Proof. by destruct c. Qed.

(** *** Strings *)

Lemma str_cmp_refl s : str_cmp s s = Eq.
Proof. induction s as [|a s IH]; simpl; [done|]. by rewrite N.compare_refl. Qed.

Lemma str_cmp_opp s t : str_cmp t s = CompOpp (str_cmp s t).
Proof.
  revert t. induction s as [|a s IH]; intros [|b t]; simpl; try done.
  rewrite then_cmp_opp, <- IH, <- N.compare_antisym. done.
Qed.

Lemma str_cmp_coherent s t u :
  coherent (str_cmp s t) (str_cmp t u) (str_cmp s u).
Proof.
  revert t u. induction s as [|a s IH]; intros [|b t] [|c u]; simpl;
    try (unfold coherent; repeat split; congruence).
  apply coherent_then; [apply coherent_N | intros; apply IH].
Qed.

(** *** Sequences *)

Section Lex.
Context {A : Type} (c : A -> A -> comparison).

Lemma lex_cmp_refl l : Forall (fun x => c x x = Eq) l -> lex_cmp c l l = Eq.
Proof. induction 1 as [|x l Hx _ IH]; simpl; [done|]. by rewrite Hx. Qed.

Lemma lex_cmp_opp l1 l2 :
  Forall (fun x => forall y, c y x = CompOpp (c x y)) l1 ->
  lex_cmp c l2 l1 = CompOpp (lex_cmp c l1 l2).
Proof.
  intros H. revert l2. induction H as [|x l1 Hx _ IH]; intros [|y l2]; simpl; try done.
  by rewrite then_cmp_opp, <- IH, <- Hx.
Qed.

Lemma lex_cmp_coherent l1 l2 l3 :
  Forall (fun x => forall y z, coherent (c x y) (c y z) (c x z)) l1 ->
  coherent (lex_cmp c l1 l2) (lex_cmp c l2 l3) (lex_cmp c l1 l3).
Proof.
  intros H. revert l2 l3.
  induction H as [|x l1 Hx _ IH]; intros [|y l2] [|z l3]; simpl;
    try (unfold coherent; repeat split; congruence).
  apply coherent_then; [apply Hx | intros; apply IH].
Qed.

End Lex.

(** *** Values *)

Lemma collate_cmp_refl a : collate_cmp a a = Eq.
Proof.
  induction a as [| [] | | | | l IH | m IH] using value_ind; simpl;
    rewrite ?Z.compare_refl; simpl; try done.
  - apply str_cmp_refl.
  - by apply lex_cmp_refl.
  - apply lex_cmp_refl. eapply Forall_impl; [exact IH|].
    intros [k v] Hv; simpl in *. by rewrite str_cmp_refl.
Qed.

Lemma collate_cmp_opp a b : collate_cmp b a = CompOpp (collate_cmp a b).
Proof.
  revert b. induction a as [| [] | | | | l IH | m IH] using value_ind; intros [| [] | | | | |];
    simpl; try done;
    try (rewrite then_cmp_opp; simpl; rewrite <- ?Z.compare_antisym; done).
  - by rewrite (Z.compare_antisym n n0).
  - by rewrite (Z.compare_antisym n x).
  - by rewrite (Z.compare_antisym x n).
  - by rewrite (Z.compare_antisym x x0).
  - apply str_cmp_opp.
  - by apply lex_cmp_opp.
  - apply lex_cmp_opp. eapply Forall_impl; [exact IH|].
    intros [k v] Hv [k' v']; simpl in *.
    by rewrite then_cmp_opp, <- Hv, <- str_cmp_opp.
Qed.

Lemma collate_cmp_coherent a b c :
  coherent (collate_cmp a b) (collate_cmp b c) (collate_cmp a c).
Proof.
  revert b c. induction a as [| [] | | | | l IH | m IH] using value_ind;
    intros [| [] | | | | |] [| [] | | | | |]; cbn;
    try (unfold coherent; repeat split; congruence);
    try apply coherent_Z.
  - apply str_cmp_coherent.
  - by apply lex_cmp_coherent.
  - apply lex_cmp_coherent. eapply Forall_impl; [exact IH|].
    intros [k v] Hv [k1 v1] [k2 v2]; simpl in *.
    apply coherent_then; [apply str_cmp_coherent | intros; apply Hv].
Qed.
End CollatorFacts.
Export CollatorFacts.

(** ** [Collate] as an integer-valued total preorder *)

Module CollateOrder.

Lemma Collate_refl a : Collate a a = 0.
Proof. unfold Collate. by rewrite collate_cmp_refl. Qed.

Lemma Collate_opp a b : Collate b a = - Collate a b.
Proof. unfold Collate. rewrite (collate_cmp_opp a b). by destruct (collate_cmp a b). Qed.

Lemma Collate_range a b : -1 <= Collate a b <= 1.
Proof. unfold Collate. destruct (collate_cmp a b); lia. Qed.

(** Unfolds [Collate] on three values and brings in how the three
    comparisons fit together. *)
Ltac collate3 a b c :=
  unfold Collate in *;
  destruct (collate_cmp_coherent a b c) as (?He1 & ?He2 & ?Hlt & ?Hgt);
  destruct (collate_cmp a b) eqn:?, (collate_cmp b c) eqn:?,
           (collate_cmp a c) eqn:?;
  try lia;
  try (specialize (He1 eq_refl)); try (specialize (He2 eq_refl));
  try (specialize (Hlt eq_refl eq_refl)); try (specialize (Hgt eq_refl eq_refl));
  try discriminate; try lia.

Lemma Collate_le_trans a b c :
  Collate a b <= 0 -> Collate b c <= 0 -> Collate a c <= 0.
Proof. intros. collate3 a b c. Qed.


Lemma Collate_lt_le_trans a b c :
  Collate a b < 0 -> Collate b c <= 0 -> Collate a c < 0.
Proof. intros. collate3 a b c. Qed.


Lemma Collate_eq_r a b c : Collate b c = 0 -> Collate a c = Collate a b.
Proof. intros. collate3 a b c. Qed.

(** A key at or above a bound stays so along an ascending sequence. *)
Lemma Collate_above_mono bound a b k :
  Collate a b <= 0 -> bound < Collate a k -> bound < Collate b k.
Proof.
  intros Hab Hak.
  rewrite (Collate_opp k a) in Hak. rewrite (Collate_opp k b).
  collate3 k a b.
Qed.



End CollateOrder.
Export CollateOrder.

(** ** [sort.Search] finds the first index of a monotone predicate *)

Module SearchFacts.

Lemma div2_between (i j : nat) :
  (i < j)%nat -> (i <= Nat.div2 (i + j))%nat /\ (Nat.div2 (i + j) < j)%nat.
Proof.
  intros H. rewrite Nat.div2_div.
  split; [apply Nat.div_le_lower_bound | apply Nat.Div0.div_lt_upper_bound]; lia.
Qed.

(** The loop is over within [j - i] turns, whatever [f] is: more turns
    change nothing. *)
Lemma search_loop_turns (f : nat -> bool) :
  forall (turns turns' i j : nat),
    (j - i <= turns)%nat -> (j - i <= turns')%nat ->
    search_loop turns f i j = search_loop turns' f i j.
Proof.
  intros turns. induction turns as [|turns IH]; intros [|turns'] i j H H'; simpl; try done.
  - destruct (Nat.ltb_spec i j); [lia|done].
  - destruct (Nat.ltb_spec i j); [lia|done].
  - destruct (Nat.ltb_spec i j) as [Hlt|Hge]; [|done].
    destruct (div2_between i j Hlt) as [Hih Hhj].
    destruct (f (Nat.div2 (i + j))); simpl; apply IH; lia.
Qed.

Lemma search_loop_spec (n : nat) (f : nat -> bool) :
  monotone n f ->
  forall (turns i j : nat),
    (j - i <= turns)%nat -> (i <= j)%nat -> (j <= n)%nat ->
    (forall k, (k < i)%nat -> f k = false) ->
    (forall k, (j <= k)%nat -> (k < n)%nat -> f k = true) ->
    let r := search_loop turns f i j in
    (r <= n)%nat
    /\ (forall k, (k < r)%nat -> f k = false)
    /\ (forall k, (r <= k)%nat -> (k < n)%nat -> f k = true).
Proof.
  intros Hmono turns. induction turns as [|turns IH]; intros i j Hfuel Hij Hjn Hlow Hhigh; simpl.
  - assert (i = j) by lia. subst. repeat split; auto.
  - destruct (Nat.ltb_spec i j) as [Hlt|Hge].
    + destruct (div2_between i j Hlt) as [Hih Hhj].
      destruct (f (Nat.div2 (i + j))) eqn:Hf; simpl.
      * apply IH; try lia; auto.
        intros k Hk Hkn. apply (Hmono (Nat.div2 (i + j)) k); auto.
      * apply IH; try lia; auto.
        intros k Hk. destruct (f k) eqn:Hfk; [|done].
        rewrite <- Hf. symmetry. apply (Hmono k (Nat.div2 (i + j))); auto; lia.
    + assert (i = j) by lia. subst. repeat split; auto.
Qed.

Lemma Search_spec (n : nat) (f : nat -> bool) :
  monotone n f ->
  (Search n f <= n)%nat
  /\ (forall k, (k < Search n f)%nat -> f k = false)
  /\ (forall k, (Search n f <= k)%nat -> (k < n)%nat -> f k = true).
Proof.
  intros Hmono. apply (search_loop_spec n f Hmono n 0%nat n); try lia.
Qed.

(** [Search] looks at [f] below [n] only. *)
Lemma search_loop_ext (n : nat) (f g : nat -> bool) :
  (forall k, (k < n)%nat -> f k = g k) ->
  forall turns i j, (j <= n)%nat ->
    search_loop turns f i j = search_loop turns g i j.
Proof.
  intros Hfg turns. induction turns as [|turns IH]; intros i j Hj; simpl; [done|].
  destruct (Nat.ltb_spec i j) as [Hlt|Hge]; [|done].
  destruct (div2_between i j Hlt) as [Hih Hhj].
  rewrite (Hfg (Nat.div2 (i + j))) by lia.
  destruct (g (Nat.div2 (i + j))); simpl; apply IH; lia.
Qed.

Lemma Search_ext (n : nat) (f g : nat -> bool) :
  (forall k, (k < n)%nat -> f k = g k) -> Search n f = Search n g.
Proof. intros H. by apply (search_loop_ext n). Qed.

Lemma firstIndex_le p rows : (firstIndex p rows <= length rows)%nat.
Proof. induction rows as [|row rows IH]; simpl; [lia|]. destruct (p row); simpl; lia. Qed.

Lemma firstIndex_before p rows k :
  (k < firstIndex p rows)%nat -> at_index p rows k = false.
Proof.
  unfold at_index. revert k. induction rows as [|row rows IH]; intros k; simpl; [lia|].
  destruct (p row) eqn:Hp; [lia|]. destruct k as [|k]; simpl; [by rewrite Hp|].
  intros. apply IH. lia.
Qed.

Lemma firstIndex_at p rows :
  (firstIndex p rows < length rows)%nat ->
  at_index p rows (firstIndex p rows) = true.
Proof.
  unfold at_index. induction rows as [|row rows IH]; simpl; [lia|].
  destruct (p row) eqn:Hp; simpl; [by rewrite Hp|]. intros. apply IH. lia.
Qed.

Lemma Search_firstIndex p rows :
  monotone (length rows) (at_index p rows) ->
  Search (length rows) (at_index p rows) = firstIndex p rows.
Proof.
  intros Hmono. destruct (Search_spec _ _ Hmono) as (Hle & Hlow & Hhigh).
  pose proof (firstIndex_le p rows) as Hfi.
  destruct (Nat.lt_trichotomy (Search (length rows) (at_index p rows)) (firstIndex p rows))
    as [Hlt | [Heq | Hgt]]; [|done|].
  - pose proof (firstIndex_before p rows _ Hlt) as Hf.
    rewrite Hhigh in Hf; [done | lia | lia].
  - pose proof (Hlow _ Hgt) as Hf.
    rewrite firstIndex_at in Hf; [done | lia].
Qed.



End SearchFacts.
Export SearchFacts.

(** ** Range selection on sorted rows *)

Module RangeFacts.

Lemma sortedRows_cons row rows :
  sortedRows (row :: rows) = true ->
  sortedRows rows = true
  /\ Forall (fun r => Collate (Key row) (Key r) <= 0) rows.
Proof.
  revert row. induction rows as [|next rows IH]; intros row H; [by split|].
  change (sortedRows (row :: next :: rows))
    with ((Collate (Key row) (Key next) <=? 0) && sortedRows (next :: rows)) in H.
  apply andb_true_iff in H as [Hle Hs]. apply Z.leb_le in Hle.
  split; [done|]. destruct (IH next Hs) as [_ Hall].
  constructor; [done|]. eapply Forall_impl; [exact Hall|].
  intros r Hr. simpl in Hr. by apply (Collate_le_trans _ (Key next)).
Qed.

Lemma sortedRows_lookup rows a b ra rb :
  sortedRows rows = true -> (a <= b)%nat ->
  rows !! a = Some ra -> rows !! b = Some rb ->
  Collate (Key ra) (Key rb) <= 0.
Proof.
  revert a b. induction rows as [|row rows IH]; intros a b Hs Hab Ha Hb; [done|].
  destruct (sortedRows_cons _ _ Hs) as [Hs' Hall].
  destruct a as [|a], b as [|b]; simpl in *; simplify_eq.
  - rewrite Collate_refl. lia.
  - rewrite Forall_forall in Hall. apply Hall. by eapply list_elem_of_lookup_2.
  - lia.
  - apply (IH a b); auto. lia.
Qed.

Lemma sortedRows_of_lookup rows :
  (forall a ra rb, rows !! a = Some ra -> rows !! S a = Some rb ->
                   Collate (Key ra) (Key rb) <= 0) ->
  sortedRows rows = true.
Proof.
  induction rows as [|row rows IH]; intros H; [done|].
  destruct rows as [|next rows]; [done|].
  change (sortedRows (row :: next :: rows))
    with ((Collate (Key row) (Key next) <=? 0) && sortedRows (next :: rows)).
  apply andb_true_iff. split.
  - apply Z.leb_le. by apply (H 0%nat).
  - apply IH. intros a ra rb Ha Hb. by apply (H (S a)).
Qed.

Lemma sortedRows_drop n rows :
  sortedRows rows = true -> sortedRows (drop n rows) = true.
Proof.
  intros Hs. apply sortedRows_of_lookup. intros a ra rb Ha Hb.
  rewrite lookup_drop in Ha, Hb.
  apply (sortedRows_lookup rows (n + a) (n + S a)); auto. lia.
Qed.

Lemma sortedRows_take n rows :
  sortedRows rows = true -> sortedRows (take n rows) = true.
Proof.
  intros Hs. apply sortedRows_of_lookup. intros a ra rb Ha Hb.
  apply lookup_take_Some in Ha as [Ha _]. apply lookup_take_Some in Hb as [Hb _].
  apply (sortedRows_lookup rows a (S a)); auto.
Qed.

(** On sorted rows the closures handed to [sort.Search] are monotone. *)
Lemma above_monotone bound k rows :
  sortedRows rows = true ->
  monotone (length rows) (at_index (fun row => bound <? Collate (Key row) k) rows).
Proof.
  intros Hs a b Hab Hb. unfold at_index.
  destruct (rows !! a) as [ra|] eqn:Ha; [|done].
  destruct (lookup_lt_is_Some_2 rows b Hb) as [rb Hrb]. rewrite Hrb.
  rewrite !Z.ltb_lt. apply Collate_above_mono.
  by apply (sortedRows_lookup rows a b).
Qed.

Lemma fromStart_above s row : fromStart s row = (-1 <? Collate (Key row) s).
Proof.
  unfold fromStart. generalize (Collate (Key row) s). intros c.
  destruct (Z.leb_spec 0 c), (Z.ltb_spec (-1) c); lia || done.
Qed.

Lemma at_index_ext p q rows i :
  (forall row, p row = q row) -> at_index p rows i = at_index q rows i.
Proof. intros H. unfold at_index. by destruct (rows !! i). Qed.

(** The start trim of the code is the one of the specification. *)
Lemma trimStart_sorted s rows :
  sortedRows rows = true -> trimStart s rows = dropBeforeStart s rows.
Proof.
  intros Hs. unfold trimStart, dropBeforeStart. destruct (is_nil s); simpl; [done|].
  change (Search (length rows) _) with (Search (length rows) (at_index (fromStart s) rows)).
  rewrite Search_firstIndex; [done|].
  intros a b Hab Hb. rewrite !(at_index_ext _ _ rows _ (fromStart_above s)).
  by apply above_monotone.
Qed.

Lemma threshold_limit incl : (if negb incl then -1 else 0) = threshold incl.
Proof. by destruct incl. Qed.

(** The end trim of the code is the one of the specification. *)
Lemma trimEnd_sorted e incl rows :
  sortedRows rows = true -> trimEnd e incl rows = cutAtEnd e incl rows.
Proof.
  intros Hs. unfold trimEnd, cutAtEnd. destruct (is_nil e); simpl; [done|].
  rewrite threshold_limit.
  change (above (threshold incl) e rows) with (at_index (pastEnd e incl) rows).
  rewrite Search_firstIndex; [done|]. by apply above_monotone.
Qed.

(** The limit of the code is the one of the specification, sorted or not. *)
Lemma applyLimit_atMost lim rows : applyLimit lim rows = atMost lim rows.
Proof.
  unfold applyLimit, atMost. destruct (Z.ltb_spec 0 lim); simpl; [|done].
  destruct (Z.ltb_spec lim (Z.of_nat (length rows))); [done|].
  rewrite take_ge; [done | lia].
Qed.

Lemma applyLimit_length lim rows :
  0 < lim -> Z.of_nat (length (applyLimit lim rows)) <= lim.
Proof.
  intros H. unfold applyLimit. destruct (Z.ltb_spec 0 lim); [|lia]. simpl.
  destruct (Z.ltb_spec lim (Z.of_nat (length rows))); [|lia].
  rewrite length_take. lia.
Qed.

Lemma sortedRows_trimStart s rows :
  sortedRows rows = true -> sortedRows (trimStart s rows) = true.
Proof.
  intros Hs. unfold trimStart. destruct (is_nil s); simpl; [done|]. by apply sortedRows_drop.
Qed.

Lemma sortedRows_applyLimit lim rows :
  sortedRows rows = true -> sortedRows (applyLimit lim rows) = true.
Proof.
  intros Hs. unfold applyLimit. destruct (_ && _); [|done]. by apply sortedRows_take.
Qed.

Lemma sortedRows_trimEnd e incl rows :
  sortedRows rows = true -> sortedRows (trimEnd e incl rows) = true.
Proof.
  intros Hs. unfold trimEnd. destruct (is_nil e); simpl; [done|]. by apply sortedRows_take.
Qed.

(** On sorted rows, dropping up to the first row that qualifies keeps exactly
    the rows that qualify, and cutting there keeps exactly those that do
    not, when the predicate is passed on to greater keys. *)
Section Filter.
Variable p : ViewRow -> bool.
Hypothesis p_up : forall a b, Collate (Key a) (Key b) <= 0 -> p a = true -> p b = true.

Lemma filter_all_true rows :
  Forall (fun r => p r = true) rows -> List.filter p rows = rows.
Proof. induction 1 as [|r rows Hr _ IH]; simpl; [done|]. by rewrite Hr, IH. Qed.

Lemma filter_all_false rows :
  Forall (fun r => p r = true) rows -> List.filter (fun r => negb (p r)) rows = [].
Proof. induction 1 as [|r rows Hr _ IH]; simpl; [done|]. by rewrite Hr. Qed.

Lemma drop_firstIndex_filter rows :
  sortedRows rows = true ->
  drop (firstIndex p rows) rows = List.filter p rows.
Proof.
  induction rows as [|row rows IH]; intros Hs; [done|].
  destruct (sortedRows_cons _ _ Hs) as [Hs' Hall]. simpl.
  destruct (p row) eqn:Hp; simpl; [|by apply IH].
  f_equal. symmetry. apply filter_all_true.
  eapply Forall_impl; [exact Hall|]. intros r Hr. by apply (p_up row).
Qed.

Lemma take_firstIndex_filter rows :
  sortedRows rows = true ->
  take (firstIndex p rows) rows = List.filter (fun r => negb (p r)) rows.
Proof.
  induction rows as [|row rows IH]; intros Hs; [done|].
  destruct (sortedRows_cons _ _ Hs) as [Hs' Hall]. simpl.
  destruct (p row) eqn:Hp; simpl; [|by rewrite IH].
  symmetry. apply filter_all_false.
  eapply Forall_impl; [exact Hall|]. intros r Hr. by apply (p_up row).
Qed.
End Filter.

Lemma filter_filter (p q : ViewRow -> bool) rows :
  List.filter q (List.filter p rows) = List.filter (fun r => p r && q r) rows.
Proof.
  induction rows as [|row rows IH]; simpl; [done|].
  destruct (p row); simpl; [|done]. destruct (q row); simpl; by rewrite IH.
Qed.

Lemma filter_true rows : List.filter (fun _ : ViewRow => true) rows = rows.
Proof. induction rows as [|row rows IH]; simpl; [done|]. by rewrite IH. Qed.

Lemma fromStart_up s a b :
  Collate (Key a) (Key b) <= 0 -> fromStart s a = true -> fromStart s b = true.
Proof.
  rewrite !fromStart_above, !Z.ltb_lt. apply Collate_above_mono.
Qed.

Lemma pastEnd_up e incl a b :
  Collate (Key a) (Key b) <= 0 -> pastEnd e incl a = true -> pastEnd e incl b = true.
Proof. unfold pastEnd. rewrite !Z.ltb_lt. apply Collate_above_mono. Qed.

Lemma sortedRows_filter p rows :
  sortedRows rows = true -> sortedRows (List.filter p rows) = true.
Proof.
  induction rows as [|row rows IH]; intros Hs; [done|].
  destruct (sortedRows_cons _ _ Hs) as [Hs' Hall]. simpl.
  destruct (p row); [|by apply IH].
  specialize (IH Hs').
  assert (Hall' : Forall (fun r => Collate (Key row) (Key r) <= 0) (List.filter p rows)).
  { rewrite Forall_forall in Hall |- *. intros r Hr. apply Hall.
    apply list_elem_of_In in Hr. apply filter_In in Hr as [Hr _]. by apply list_elem_of_In. }
  destruct (List.filter p rows) as [|next rest]; [done|].
  change (sortedRows (row :: next :: rest))
    with ((Collate (Key row) (Key next) <=? 0) && sortedRows (next :: rest)).
  apply andb_true_iff. split; [|done]. apply Z.leb_le.
  by inversion Hall'.
Qed.

(** The rows kept by the two trims are exactly the rows in range. *)
Lemma selection_filter s e incl rows :
  sortedRows rows = true ->
  cutAtEnd e incl (dropBeforeStart s rows) = List.filter (inRange s e incl) rows.
Proof.
  intros Hs. unfold cutAtEnd, dropBeforeStart, inRange.
  destruct (is_nil s) eqn:Hns, (is_nil e) eqn:Hne; simpl.
  - by rewrite filter_true.
  - rewrite (take_firstIndex_filter _ (pastEnd_up e incl)); [|done].
    apply filter_ext. intros r. done.
  - rewrite (drop_firstIndex_filter _ (fromStart_up s)); [|done].
    apply filter_ext. intros r. by rewrite andb_true_r.
  - rewrite (drop_firstIndex_filter _ (fromStart_up s)); [|done].
    rewrite (take_firstIndex_filter _ (pastEnd_up e incl)); [|by apply sortedRows_filter].
    by rewrite filter_filter.
Qed.

End RangeFacts.
Export RangeFacts.

(** ** The pipeline without documents and without reduction *)

Module Pipeline.

Lemma applyLimit_off lim rows : lim <= 0 -> applyLimit lim rows = rows.
Proof. intros H. unfold applyLimit. destruct (Z.ltb_spec 0 lim); [lia|done]. Qed.

Section Plain.
Variable unmarshal : list Byte.byte -> value.

(** With [reverse] and [include_docs] off and no reduction, the result is
    the rows left by the three trims, with their count. *)
Lemma ProcessViewResult_trims result params bucket reduceFunction s e incl :
  rangeOf params = (s, e, incl) ->
  reverse (readOptions params) = false ->
  includeDocs (readOptions params) = false ->
  reduce (readOptions params) = false \/ reduceFunction = "" ->
  ProcessViewResult unmarshal result params bucket reduceFunction
  = let kept := trimEnd e incl
                  (applyLimit (limit (readOptions params))
                     (trimStart s (Rows result))) in
    Return ({| TotalRows := Z.of_nat (length kept); Rows := kept |}, None).
Proof.
  intros Hrange Hrev Hdocs Hred. unfold ProcessViewResult, reduceStage.
  rewrite Hrev, Hrange, Hdocs. simpl.
  assert (Hoff : reduce (readOptions params) && negb (String.eqb reduceFunction "") = false).
  { destruct Hred as [-> | ->]; [done|]. by rewrite andb_false_r. }
  by rewrite Hoff.
Qed.

(** On sorted rows and without a limit, the rows left are the ones between
    the boundaries. *)
Lemma ProcessViewResult_range result params bucket reduceFunction s e incl :
  sortedRows (Rows result) = true ->
  rangeOf params = (s, e, incl) ->
  reverse (readOptions params) = false ->
  includeDocs (readOptions params) = false ->
  limit (readOptions params) <= 0 ->
  reduce (readOptions params) = false \/ reduceFunction = "" ->
  let kept := cutAtEnd e incl (dropBeforeStart s (Rows result)) in
  ProcessViewResult unmarshal result params bucket reduceFunction
  = Return ({| TotalRows := Z.of_nat (length kept); Rows := kept |}, None)
  /\ trimEnd e incl (trimStart s (Rows result)) = kept
  /\ kept = List.filter (inRange s e incl) (Rows result).
Proof.
  intros Hs Hrange Hrev Hdocs Hlim Hred kept.
  rewrite (ProcessViewResult_trims result params bucket
             reduceFunction s e incl Hrange Hrev Hdocs Hred).
  rewrite (applyLimit_off _ _ Hlim).
  assert (Hkept : trimEnd e incl (trimStart s (Rows result)) = kept).
  { rewrite trimEnd_sorted by (by apply sortedRows_trimStart).
    by rewrite trimStart_sorted. }
  cbv zeta. rewrite Hkept. split; [done|]. split; [done|].
  by apply selection_filter.
Qed.
(** With [include_docs], the rows left by the trims go through the
    inliner; an error ends the call. *)
Lemma ProcessViewResult_docs result params bucket reduceFunction s e incl :
  rangeOf params = (s, e, incl) ->
  reverse (readOptions params) = false ->
  includeDocs (readOptions params) = true ->
  ProcessViewResult unmarshal result params bucket reduceFunction
  = match inlineDocs unmarshal bucket
            (trimEnd e incl
               (applyLimit (limit (readOptions params))
                  (trimStart s (Rows result)))) with
    | (rows, Some err) => Return (set_Rows result rows, Some err)
    | (rows, None) =>
        reduceStage (reduce (readOptions params)) reduceFunction
          params (set_Rows result rows)
    end.
Proof.
  intros Hrange Hrev Hdocs. unfold ProcessViewResult.
  rewrite Hrev, Hrange, Hdocs. cbn [Rows set_Rows].
  by destruct (inlineDocs unmarshal bucket _) as [rows [err|]].
Qed.

(** Without [include_docs], the rows left by the trims go to the reduce
    stage. *)
Lemma ProcessViewResult_reduce result params bucket reduceFunction s e incl :
  rangeOf params = (s, e, incl) ->
  reverse (readOptions params) = false ->
  includeDocs (readOptions params) = false ->
  ProcessViewResult unmarshal result params bucket reduceFunction
  = reduceStage (reduce (readOptions params)) reduceFunction params
      (set_Rows result
         (trimEnd e incl
            (applyLimit (limit (readOptions params))
               (trimStart s (Rows result))))).
Proof.
  intros Hrange Hrev Hdocs. unfold ProcessViewResult.
  by rewrite Hrev, Hrange, Hdocs.
Qed.

Lemma reduceStage_off b reduceFunction params result :
  b = false \/ reduceFunction = "" ->
  reduceStage b reduceFunction params result
  = Return ({| TotalRows := Z.of_nat (length (Rows result));
               Rows := Rows result |}, None).
Proof.
  intros Hoff. unfold reduceStage.
  assert (Hskip : b && negb (String.eqb reduceFunction "") = false).
  { destruct Hoff as [-> | ->]; [done|]. by rewrite andb_false_r. }
  by rewrite Hskip.
Qed.
End Plain.

Lemma inRange_key k row :
  k <> VNil -> inRange k k true row = (Collate (Key row) k =? 0).
Proof.
  intros Hk. unfold inRange, fromStart, pastEnd, threshold.
  destruct k; try done; simpl;
    match goal with |- context [Collate ?a ?b] => generalize (Collate a b) end;
    intros c; destruct (Z.leb_spec 0 c), (Z.ltb_spec 0 c), (Z.eqb_spec c 0); simpl; lia || done.
Qed.

End Pipeline.
Export Pipeline.

(** ** The reduce functions and the grouped scan *)

Module ReduceFacts.

Lemma ReduceFunc_count : ReduceFunc "_count" = inl count_fun.
Proof. reflexivity. Qed.

Lemma ReduceFunc_sum : ReduceFunc "_sum" = inl sum_fun.
Proof. reflexivity. Qed.

Lemma ReduceFunc_other name :
  name <> "_count" -> name <> "_sum" -> ReduceFunc name = inr errUnsupportedReduce.
Proof.
  intros Hc Hs. unfold ReduceFunc.
  apply String.eqb_neq in Hc, Hs. by rewrite Hc, Hs.
Qed.

Lemma ReduceFunc_cases name f :
  ReduceFunc name = inl f ->
  (name = "_count" /\ f = count_fun) \/ (name = "_sum" /\ f = sum_fun).
Proof.
  unfold ReduceFunc.
  destruct (String.eqb_spec name "_count") as [->|_]; [intros [= <-]; by left|].
  destruct (String.eqb_spec name "_sum") as [->|_]; [intros [= <-]; by right|done].
Qed.



(** A built-in reduce function never returns an error, and its row has no
    key. *)
Lemma builtin_row name f rows r :
  ReduceFunc name = inl f -> f rows = Return r ->
  exists v, r = inl (rowOfValue v).
Proof.
  intros Hf Hr. destruct (ReduceFunc_cases _ _ Hf) as [[_ ->] | [_ ->]].
  - injection Hr as <-. eauto.
  - unfold sum_fun in Hr. destruct (sum_loop 0 rows); [|done].
    injection Hr as <-. eauto.
Qed.

(** *** The group level *)

Lemma groupLevelOf_none params :
  param params "group" = VNil -> param params "group_level" = VNil ->
  groupLevelOf params = Return 0.
Proof. intros Hg Hl. unfold groupLevelOf. by rewrite Hg, Hl. Qed.

Lemma groupLevelOf_group params :
  param params "group" = VBool true -> groupLevelOf params = Return (-1).
Proof. intros Hg. unfold groupLevelOf. by rewrite Hg. Qed.



(** *** The scan *)

Lemma projectKeys_rows g rows prs :
  projectKeys g rows = Return prs ->
  map snd prs = rows
  /\ Forall (fun pr => groupKey g (Key (snd pr)) = Return (fst pr)) prs.
Proof.
  revert prs. induction rows as [|row rows IH]; intros prs H; simpl in H.
  - injection H as <-. by split.
  - destruct (groupKey g (Key row)) as [pk|] eqn:Hpk; [|done]. simpl in H.
    destruct (projectKeys g rows) as [prs'|]; [|done]. simpl in H.
    injection H as <-. destruct (IH prs' eq_refl) as [Hm Hall].
    split; [simpl; by rewrite Hm | by constructor].
Qed.

Lemma projectKeys_whole rows :
  projectKeys (-1) rows = Return (map (fun row => (Key row, row)) rows).
Proof. induction rows as [|row rows IH]; simpl; [done|]. by rewrite IH. Qed.

(** The scan of the code and what follows it emit the groups of
    [scanGroups], in order, behind the rows emitted before. *)
Lemma groupLoop_scan f g rows : forall prs key acc outRows,
  projectKeys g rows = Return prs ->
  (st ← groupLoop f g rows key (map snd acc) outRows; closeLoop f st)
  = (out ← emitGroups f (scanGroups key acc prs); Return (behind outRows out)).
Proof.
  induction rows as [|row rows IH]; intros prs key acc outRows Hprs; simpl in Hprs.
  - injection Hprs as <-. simpl.
    destruct (f (map snd acc)) as [[outRow|e]|]; done.
  - destruct (groupKey g (Key row)) as [pk|] eqn:Hpk; [|done]. simpl in Hprs.
    destruct (projectKeys g rows) as [prs'|] eqn:Hprs'; [|done]. simpl in Hprs.
    injection Hprs as <-. simpl. rewrite Hpk. simpl.
    destruct (Collate pk key =? 0).
    + specialize (IH prs' key (acc ++ [(pk, row)]) outRows eq_refl).
      rewrite map_app in IH. exact IH.
    + simpl. destruct (f (map snd acc)) as [[outRow|e]|]; simpl; [|done|done].
      specialize (IH prs' pk [(pk, row)] (outRows ++ [set_Key outRow key]) eq_refl).
      simpl in IH. rewrite IH.
      destruct (emitGroups f (scanGroups pk [(pk, row)] prs')) as [[out|e]|]; simpl;
        [|done|done].
      by rewrite <- app_assoc.
Qed.

(** *** The groups *)

Lemma scanGroups_head key acc rest :
  exists members groups, scanGroups key acc rest = (key, members) :: groups.
Proof.
  revert acc. induction rest as [|[pk row] rest IH]; intros acc; simpl; [eauto|].
  destruct (Collate pk key =? 0); eauto.
Qed.

Lemma scanGroups_concat key acc rest :
  concat (map snd (scanGroups key acc rest)) = acc ++ rest.
Proof.
  revert key acc. induction rest as [|[pk row] rest IH]; intros key acc; simpl.
  - by rewrite app_nil_r.
  - destruct (Collate pk key =? 0); simpl; rewrite IH.
    + by rewrite <- app_assoc.
    + done.
Qed.

Lemma scanGroups_wellFormed key acc rest :
  wellFormedGroup (key, acc) ->
  Forall wellFormedGroup (scanGroups key acc rest).
Proof.
  revert key acc. induction rest as [|[pk row] rest IH]; intros key acc Hwf; simpl.
  - by constructor.
  - destruct (Z.eqb_spec (Collate pk key) 0) as [Heq|Hne].
    + apply IH. destruct Hwf as [Hhead Hall]. simpl in *. split; simpl.
      * destruct acc; [done|]. exact Hhead.
      * apply Forall_app. split; [done|]. by constructor.
    + constructor; [done|]. apply IH. split; simpl; [done|].
      constructor; [|done]. simpl. apply Collate_refl.
Qed.

Lemma scanGroups_keysChange key acc rest : keysChange (scanGroups key acc rest).
Proof.
  revert key acc. induction rest as [|[pk row] rest IH]; intros key acc; simpl; [done|].
  destruct (Z.eqb_spec (Collate pk key) 0) as [Heq|Hne]; [apply IH|].
  specialize (IH pk [(pk, row)]).
  destruct (scanGroups_head pk [(pk, row)] rest) as (members & groups & Heq).
  rewrite Heq in IH |- *. by split.
Qed.

(** The groups of a non-empty sequence. *)
Lemma keyGroups_facts prs :
  prs <> [] ->
  keyGroups prs <> []
  /\ concat (map snd (keyGroups prs)) = prs
  /\ Forall wellFormedGroup (keyGroups prs)
  /\ keysChange (keyGroups prs).
Proof.
  destruct prs as [|[pk row] rest]; [done|]. intros _. unfold keyGroups.
  split; [|split; [|split]].
  - destruct (scanGroups_head pk [] ((pk, row) :: rest)) as (? & ? & ->). done.
  - by rewrite scanGroups_concat.
  - simpl. rewrite Collate_refl. simpl. apply scanGroups_wellFormed.
    split; simpl; [done|]. constructor; [|done]. apply Collate_refl.
  - apply scanGroups_keysChange.
Qed.

Lemma emitGroups_count groups :
  emitGroups count_fun groups
  = Return (inl (map (fun g => rowOut (fst g) (Z.of_nat (length (snd g)))) groups)).
Proof.
  induction groups as [|[key members] groups IH]; simpl; [done|].
  rewrite IH. simpl. by rewrite length_map.
Qed.


(** [ReduceViewResult] with grouping on non-empty rows, in terms of the
    scan. *)
Lemma ReduceViewResult_grouped name f params result g prs :
  ReduceFunc name = inl f ->
  groupLevelOf params = Return g -> g <> 0 ->
  Rows result <> [] ->
  projectKeys g (Rows result) = Return prs ->
  ReduceViewResult name params result
  = (out ← emitGroups f (keyGroups prs); Return (reduced result out)).
Proof.
  intros Hf Hg Hg0 Hne Hprs. unfold ReduceViewResult. rewrite Hf, Hg.
  cbn -[groupLoop keyGroups scanGroups emitGroups].
  destruct (Z.eqb_spec g 0) as [|_]; [done|]. cbn -[groupLoop keyGroups scanGroups emitGroups].
  destruct (Rows result) as [|row0 rows] eqn:Hrows; [done|].
  pose proof Hprs as Hprs0. simpl in Hprs0.
  destruct (groupKey g (Key row0)) as [pk|] eqn:Hpk; [|done]. simpl in Hprs0.
  destruct (projectKeys g rows) as [prs'|] eqn:Hprs'; [|done]. simpl in Hprs0.
  injection Hprs0 as <-. cbn -[groupLoop keyGroups scanGroups emitGroups].
  pose proof (groupLoop_scan f g (row0 :: rows) _ pk [] [] Hprs) as Hscan.
  change (map snd []) with (@nil ViewRow) in Hscan.
  change (keyGroups ((pk, row0) :: prs'))
    with (scanGroups pk [] ((pk, row0) :: prs')).
  generalize dependent (emitGroups f (scanGroups pk [] ((pk, row0) :: prs'))).
  generalize (groupLoop f g (row0 :: rows) pk [] []).
  intros [[[[key inRows] outRows]|e]|] [out|] Hscan; cbn in Hscan |- *; try done.
  - destruct (f inRows) as [[outRow|e]|]; cbn in Hscan |- *;
      destruct out; simplify_eq; by rewrite ?app_nil_l.
  - destruct (f inRows) as [[outRow|e]|]; cbn in Hscan |- *; done.
  - destruct out; simplify_eq; done.
Qed.

End ReduceFacts.
Export ReduceFacts.

(** ** Where the grouped reduction panics *)

Module PanicFacts.

Lemma ReduceViewResult_no_rows name f params result g :
  ReduceFunc name = inl f -> groupLevelOf params = Return g -> g <> 0 ->
  Rows result = [] ->
  ReduceViewResult name params result = Panic.
Proof.
  intros Hf Hg Hg0 Hrows. unfold ReduceViewResult. rewrite Hf, Hg, Hrows. simpl.
  by destruct (Z.eqb_spec g 0).
Qed.

(** A key that is no array has no prefix. *)
Lemma groupKey_not_array g key :
  g <> -1 -> (forall l, key <> VArr l) -> groupKey g key = Panic.
Proof.
  intros Hg Hk. unfold groupKey. destruct (Z.eqb_spec g (-1)); [done|]. simpl.
  destruct key; try done. by destruct (Hk l).
Qed.

Lemma groupKey_array g l :
  0 <= g <= Z.of_nat (length l) ->
  groupKey g (VArr l) = Return (VArr (take (Z.to_nat g) l)).
Proof.
  intros Hg. unfold groupKey, keyPrefix. destruct (Z.eqb_spec g (-1)); [lia|]. simpl.
  destruct (Z.leb_spec 0 g), (Z.leb_spec g (Z.of_nat (length l))); simpl; lia || done.
Qed.

Lemma projectKeys_arrays g rows :
  0 <= g ->
  Forall (fun row => exists l, Key row = VArr l /\ g <= Z.of_nat (length l)) rows ->
  exists prs, projectKeys g rows = Return prs.
Proof.
  intros Hg. induction 1 as [|row rows (l & Hl & Hlen) _ [prs IH]]; simpl; [eauto|].
  rewrite Hl, groupKey_array by lia. simpl. rewrite IH. simpl. eauto.
Qed.

(** The scan panics at the first row whose key has no projection, unless it
    panicked before. *)
Lemma groupLoop_panics f g rows :
  (forall rs e, f rs <> Return (inr e)) ->
  Exists (fun row => groupKey g (Key row) = Panic) rows ->
  forall key inRows outRows, groupLoop f g rows key inRows outRows = Panic.
Proof.
  intros Hf. induction rows as [|row rows IH]; intros Hex key inRows outRows.
  - by apply Exists_nil in Hex.
  - simpl. destruct (groupKey g (Key row)) as [pk|] eqn:Hpk; [|done]. simpl.
    apply Exists_cons in Hex as [Hex|Hex]; [congruence|].
    destruct (Collate pk key =? 0); [by apply IH|].
    destruct (f inRows) as [[outRow|e]|] eqn:Hfr; simpl; [by apply IH | | done].
    by destruct (Hf inRows e).
Qed.

Lemma builtin_no_error name f :
  ReduceFunc name = inl f -> forall rs e, f rs <> Return (inr e).
Proof.
  intros Hf rs e Hr. by destruct (builtin_row name f rs _ Hf Hr).
Qed.

Lemma ReduceViewResult_unprojectable name f params result g :
  ReduceFunc name = inl f -> groupLevelOf params = Return g -> g <> 0 ->
  Exists (fun row => groupKey g (Key row) = Panic) (Rows result) ->
  ReduceViewResult name params result = Panic.
Proof.
  intros Hf Hg Hg0 Hex. unfold ReduceViewResult. rewrite Hf, Hg.
  cbn -[groupLoop]. destruct (Z.eqb_spec g 0) as [|_]; [done|]. cbn -[groupLoop].
  destruct (Rows result) as [|row0 rows] eqn:Hrows; [done|].
  destruct (groupKey g (Key row0)) as [key|]; [|done]. cbn -[groupLoop].
  by rewrite (groupLoop_panics f g (row0 :: rows) (builtin_no_error name f Hf) Hex).
Qed.

Lemma ReduceViewResult_not_array name f params result g :
  ReduceFunc name = inl f -> groupLevelOf params = Return g ->
  g <> 0 -> g <> -1 ->
  Exists (fun row => forall l, Key row <> VArr l) (Rows result) ->
  ReduceViewResult name params result = Panic.
Proof.
  intros Hf Hg Hg0 Hg1 Hex.
  apply (ReduceViewResult_unprojectable name f params result g Hf Hg Hg0).
  eapply Exists_impl; [exact Hex|]. intros row Hrow. by apply groupKey_not_array.
Qed.

Lemma projectKeys_cases g rows :
  (exists prs, projectKeys g rows = Return prs)
  \/ Exists (fun row => groupKey g (Key row) = Panic) rows.
Proof.
  induction rows as [|row rows IH]; simpl; [eauto|].
  destruct (groupKey g (Key row)) as [pk|] eqn:Hpk; [|right; by left].
  destruct IH as [[prs ->] | Hex]; simpl; [eauto | right; by right].
Qed.

Lemma ReduceViewResult_count_returns params result g prs :
  groupLevelOf params = Return g -> g <> 0 -> Rows result <> [] ->
  projectKeys g (Rows result) = Return prs ->
  ReduceViewResult "_count" params result
  = Return (set_Rows result
              (map (fun g => rowOut (fst g) (Z.of_nat (length (snd g))))
                 (keyGroups prs)), None).
Proof.
  intros Hg Hg0 Hne Hprs.
  rewrite (ReduceViewResult_grouped "_count" count_fun params result g prs
             ReduceFunc_count Hg Hg0 Hne Hprs).
  by rewrite emitGroups_count.
Qed.

End PanicFacts.
Export PanicFacts.

(** ** The document inliner *)

Module InlineFacts.

Section Inline.
Variable unmarshal : list Byte.byte -> value.
Variable bucket : Bucket.

Lemma inlineDocs_all rows :
  Forall (fun row => fetchError bucket row = None) rows ->
  inlineDocs unmarshal bucket rows = (map (fetched unmarshal bucket) rows, None).
Proof.
  induction 1 as [|row rows Hrow _ IH]; simpl; [done|].
  unfold fetchError in Hrow. unfold fetched at 1.
  destruct (GetRaw bucket (ID row)) as [[raw cas] err]. simpl in *. subst err.
  by rewrite IH.
Qed.

Lemma inlineDocs_first_failure before row after e :
  Forall (fun row => fetchError bucket row = None) before ->
  fetchError bucket row = Some e ->
  inlineDocs unmarshal bucket (before ++ row :: after)
  = (map (fetched unmarshal bucket) before ++ row :: after, Some e).
Proof.
  intros Hbefore Hrow.
  induction Hbefore as [|row' before Hrow' _ IH]; simpl.
  - unfold fetchError in Hrow.
    destruct (GetRaw bucket (ID row)) as [[raw cas] err]. simpl in *. by subst err.
  - unfold fetchError in Hrow'. unfold fetched at 1.
    destruct (GetRaw bucket (ID row')) as [[raw cas] err]. simpl in *. subst err.
    by rewrite IH.
Qed.

(** Either every fetch succeeds or there is a first one that fails. *)
Lemma fetch_cases rows :
  Forall (fun row => fetchError bucket row = None) rows
  \/ exists before row after e,
       rows = before ++ row :: after
       /\ Forall (fun row => fetchError bucket row = None) before
       /\ fetchError bucket row = Some e.
Proof.
  induction rows as [|row rows IH]; [by left|].
  destruct (fetchError bucket row) as [e|] eqn:Hrow.
  - right. exists [], row, rows, e. by repeat split.
  - destruct IH as [Hall | (before & row' & after & e & -> & Hbefore & Hrow')].
    + left. by constructor.
    + right. exists (row :: before), row', after, e. repeat split; [|done]. by constructor.
Qed.

Lemma fetched_fetched row :
  fetched unmarshal bucket (fetched unmarshal bucket row)
  = fetched unmarshal bucket row.
Proof. done. Qed.

Lemma fetchError_fetched row :
  fetchError bucket (fetched unmarshal bucket row) = fetchError bucket row.
Proof. done. Qed.
End Inline.

End InlineFacts.
Export InlineFacts.

(** ** Running the pipeline on its own output *)

Module RerunFacts.









(** *** The rows a reduction emits *)




End RerunFacts.
Export RerunFacts.

Module ReduceOutput.





End ReduceOutput.
Export ReduceOutput.

(** ** Range selection, limit and the [key] parameter *)



(** C3 (as amended).  With [reverse], [include_docs] and the reduction off,
    the result is, for every input, the end trim of the limit of the start
    trim of the rows, the limit cutting to at most [limit] rows when
    [limit > 0] and doing nothing otherwise.  With keys 1..5, [limit=1] and
    [startkey=2] the limit leaves the row with key 2 alone, and the end trim
    keeps it exactly when an end key, if given, does not exclude key 2;
    otherwise no row is left. *)
Theorem limit_between_the_trims :
  (forall (unmarshal : list Byte.byte -> value) (result : ViewResult)
          (params : Params) (bucket : Bucket) (reduceFunction : string)
          (startkey endkey : value) (inclusiveEnd : bool),
      rangeOf params = (startkey, endkey, inclusiveEnd) ->
      reverse (readOptions params) = false ->
      includeDocs (readOptions params) = false ->
      reduce (readOptions params) = false \/ reduceFunction = "" ->
      let started := trimStart startkey (Rows result) in
      let limited := applyLimit (limit (readOptions params)) started in
      let kept := trimEnd endkey inclusiveEnd limited in
      ProcessViewResult unmarshal result params bucket reduceFunction
      = Return ({| TotalRows := Z.of_nat (length kept); Rows := kept |}, None)
      /\ limited = atMost (limit (readOptions params)) started
      /\ (limit (readOptions params) <= 0 -> limited = started)
      /\ (0 < limit (readOptions params) ->
          Z.of_nat (length kept) <= limit (readOptions params))
      /\ (sortedRows (Rows result) = true ->
          kept = cutAtEnd endkey inclusiveEnd
                   (atMost (limit (readOptions params))
                      (dropBeforeStart startkey (Rows result)))))
  /\ (forall (endkey : value) (inclusiveEnd : bool),
         ProcessViewResult decode (resultOf rows12345)
           (query [("startkey", VNum 2); ("limit", VUint 1);
                   ("endkey", endkey); ("inclusive_end", VBool inclusiveEnd)])
           oneDoc ""
         = Return (resultOf (if is_nil endkey
                                || negb (pastEnd endkey inclusiveEnd (rowK 2))
                             then [rowK 2] else []), None))
  /\ ProcessViewResult decode (resultOf rows12345)
       (query [("startkey", VNum 2); ("limit", VUint 1)]) oneDoc ""
     = Return (resultOf [rowK 2], None)
  /\ ProcessViewResult decode (resultOf rows12345)
       (query [("startkey", VNum 2); ("limit", VUint 0)]) oneDoc ""
     = Return (resultOf (map rowK [2; 3; 4; 5]), None).
Proof.
  split; [|split; [|split; reflexivity]].
  - intros unmarshal result params bucket reduceFunction s e incl
      Hrange Hrev Hdocs Hred started limited kept.
    rewrite (ProcessViewResult_trims unmarshal result params bucket
               reduceFunction s e incl Hrange Hrev Hdocs Hred).
    split; [done|]. split; [apply applyLimit_atMost|].
    split; [apply applyLimit_off|]. split.
    + intros Hlim. pose proof (applyLimit_length _ started Hlim) as Hlen.
      fold limited in Hlen. subst kept. unfold trimEnd.
      destruct (is_nil e); simpl; [done|]. rewrite length_take. lia.
    + intros Hs. subst kept limited started.
      rewrite trimEnd_sorted
        by (by apply sortedRows_applyLimit, sortedRows_trimStart).
      by rewrite applyLimit_atMost, trimStart_sorted.
  - intros e incl.
    rewrite (ProcessViewResult_trims decode _ _ oneDoc "" (VNum 2) e incl);
      [ | by destruct e | done | done | by right ].
    replace (limit (readOptions _)) with 1 by (by destruct e).
    change (applyLimit 1 (trimStart (VNum 2) (Rows (resultOf rows12345))))
      with [rowK 2].
    unfold trimEnd, pastEnd, above, Search. rewrite threshold_limit.
    destruct (is_nil e); simpl; [done|].
    by destruct (threshold incl <? Collate (VNum 2) e).
Qed.

(** C3 as the specification states it does not hold: with an end key
    below the start key the row left by the limit is cut as well, so
    [limit=1] with [startkey=2] does not yield the row with key 2
    regardless of the end key. *)
Lemma limit_regardless_of_endkey_fails :
  ProcessViewResult decode (resultOf rows12345)
    (query [("startkey", VNum 2); ("limit", VUint 1); ("endkey", VNum 1)])
    oneDoc ""
  = Return ({| TotalRows := 0; Rows := [] |}, None)
  /\ ProcessViewResult decode (resultOf rows12345)
       (query [("startkey", VNum 2); ("limit", VUint 1); ("endkey", VNum 1)])
       oneDoc ""
     <> Return (resultOf [rowK 2], None).
Proof. split; [reflexivity | discriminate]. Qed.

Lemma limit_between_the_trims_witness :
  ProcessViewResult decode (resultOf rows12345)
    (query [("startkey", VNum 2); ("limit", VUint 2); ("endkey", VNum 4)])
    oneDoc ""
  = Return (resultOf (map rowK [2; 3]), None).
Proof.
  exact (proj1 (proj1 limit_between_the_trims decode (resultOf rows12345)
                  (query [("startkey", VNum 2); ("limit", VUint 2);
                          ("endkey", VNum 4)])
                  oneDoc "" (VNum 2) (VNum 4) true
                  eq_refl eq_refl eq_refl (or_intror eq_refl))).
Defined.

(** C4.  A [key] parameter replaces both the start key and the end key by
    its value, with the inclusive end: on sorted rows the selection is the
    rows whose key collates equal to it.  On keys 1, 2, 3, 3, 4, [key=3]
    selects the two rows with key 3. *)
Theorem key_selects_the_equal_rows :
  (forall (unmarshal : list Byte.byte -> value) (result : ViewResult)
          (params : Params) (bucket : Bucket) (reduceFunction : string)
          (key : value),
      param params "key" = key -> key <> VNil ->
      sortedRows (Rows result) = true ->
      reverse (readOptions params) = false ->
      includeDocs (readOptions params) = false ->
      limit (readOptions params) <= 0 ->
      reduce (readOptions params) = false \/ reduceFunction = "" ->
      let equal := List.filter (fun row => Collate (Key row) key =? 0)
                     (Rows result) in
      rangeOf params = (key, key, true)
      /\ ProcessViewResult unmarshal result params bucket reduceFunction
         = Return ({| TotalRows := Z.of_nat (length equal); Rows := equal |},
                   None))
  /\ ProcessViewResult decode (resultOf rows12334)
       (query [("key", VNum 3)]) oneDoc ""
     = Return (resultOf [rowK 3; rowK 3], None)
  /\ ProcessViewResult decode (resultOf rows12334)
       (query [("key", VNum 3); ("startkey", VNum 1); ("endkey", VNum 4);
               ("inclusive_end", VBool false)]) oneDoc ""
     = Return (resultOf [rowK 3; rowK 3], None).
Proof.
  split; [|split; reflexivity].
  intros unmarshal result params bucket reduceFunction key
    Hkey Hnn Hs Hrev Hdocs Hlim Hred equal.
  assert (Hrange : rangeOf params = (key, key, true)).
  { unfold rangeOf. rewrite Hkey. by destruct key. }
  split; [done|].
  destruct (ProcessViewResult_range unmarshal result params bucket
              reduceFunction key key true Hs Hrange Hrev Hdocs Hlim Hred)
    as (-> & _ & Hfilter).
  cbv zeta in Hfilter. rewrite Hfilter.
  replace (List.filter (inRange key key true) (Rows result)) with equal; [done|].
  apply filter_ext. intros row. symmetry. by apply inRange_key.
Qed.

Lemma key_selects_the_equal_rows_witness :
  ProcessViewResult decode (resultOf rows12345)
    (query [("key", VNum 4); ("reduce", VBool false)]) oneDoc "_sum"
  = Return (resultOf [rowK 4], None).
Proof.
  exact (proj2 (proj1 key_selects_the_equal_rows decode (resultOf rows12345)
                  (query [("key", VNum 4); ("reduce", VBool false)])
                  oneDoc "_sum" (VNum 4)
                  eq_refl ltac:(discriminate) eq_refl eq_refl eq_refl
                  ltac:(vm_compute; discriminate) (or_introl eq_refl))).
Defined.

(** C6.  When the [reverse] parameter is true, [ProcessViewResult] returns
    the unsupported-operation error together with the result it was given,
    untouched: nothing is trimmed, fetched or reduced. *)
Theorem reverse_is_rejected :
  forall (unmarshal : list Byte.byte -> value) (result : ViewResult)
         (params : Params) (bucket : Bucket) (reduceFunction : string),
    param params "reverse" = VBool true ->
    ProcessViewResult unmarshal result params bucket reduceFunction
    = Return (result, Some errReverse).
Proof.
  intros unmarshal result params bucket reduceFunction Hrev.
  assert (Hopt : reverse (readOptions params) = true).
  { destruct params as [m|]; [|done].
    unfold readOptions. cbn [reverse]. by rewrite Hrev. }
  unfold ProcessViewResult. by rewrite Hopt.
Qed.

Lemma reverse_is_rejected_witness :
  ProcessViewResult decode (resultOf rows12345)
    (query [("reverse", VBool true); ("startkey", VNum 3);
            ("include_docs", VBool true)]) oneDoc "_count"
  = Return (resultOf rows12345, Some errReverse).
Proof.
  exact (reverse_is_rejected decode (resultOf rows12345)
           (query [("reverse", VBool true); ("startkey", VNum 3);
                   ("include_docs", VBool true)]) oneDoc "_count" eq_refl).
Defined.

(** ** Reduction *)





(** C7.  For a reduce function name other than ["_count"] and ["_sum"] the
    reduce stage returns the unsupported-reduce-function error and leaves
    the result as it was: the error comes before the group level is read
    and before any row is looked at.  [ProcessViewResult] then returns that
    error with the rows of the earlier stages. *)
Theorem unknown_reduce_function_is_rejected :
  forall (name : string),
    name <> "_count" -> name <> "_sum" ->
    (forall (params : Params) (result : ViewResult),
        ReduceViewResult name params result
        = Return (result, Some errUnsupportedReduce))
    /\ (forall (unmarshal : list Byte.byte -> value) (result : ViewResult)
               (params : Params) (bucket : Bucket),
           name <> "" ->
           reverse (readOptions params) = false ->
           includeDocs (readOptions params) = false ->
           reduce (readOptions params) = true ->
           ProcessViewResult unmarshal result params bucket name
           = Return (set_Rows result
                       (trimEnd (snd (fst (rangeOf params))) (snd (rangeOf params))
                          (applyLimit (limit (readOptions params))
                             (trimStart (fst (fst (rangeOf params))) (Rows result)))),
                     Some errUnsupportedReduce)).
Proof.
  intros name Hc Hs.
  assert (Hred : forall params result,
             ReduceViewResult name params result
             = Return (result, Some errUnsupportedReduce)).
  { intros params result. unfold ReduceViewResult.
    by rewrite (ReduceFunc_other name Hc Hs). }
  split; [done|].
  intros unmarshal result params bucket Hne Hrev Hdocs Hreduce.
  unfold ProcessViewResult, reduceStage. rewrite Hrev, Hdocs, Hreduce.
  destruct (rangeOf params) as [[s e] incl]. simpl.
  apply String.eqb_neq in Hne. rewrite Hne. simpl. by rewrite Hred.
Qed.

Lemma unknown_reduce_function_witness :
  ReduceViewResult "_stats" (query [("group", VStr "yes")]) (resultOf [])
  = Return (resultOf [], Some errUnsupportedReduce).
Proof.
  exact (proj1 (unknown_reduce_function_is_rejected "_stats"
                  ltac:(discriminate) ltac:(discriminate))
           (query [("group", VStr "yes")]) (resultOf [])).
Defined.

(** C10 (as amended).  Grouped reduction reads [Rows[0]] before the scan
    and panics on an empty row sequence, where ungrouped reduction returns
    its single row.  Rows alone are enough when the whole key is the group
    key: under [group=true] and [_count] the call returns exactly when the
    rows are not empty.  Under [group_level=N] the keys must be arrays as
    well: the call panics when some key is none, and returns under [_count]
    when the rows are not empty and every key is an array of at least [N]
    elements. *)
Theorem grouped_reduction_needs_rows :
  forall (name : string) (f : reduceFun) (params : Params)
         (result : ViewResult) (g : Z),
    ReduceFunc name = inl f ->
    groupLevelOf params = Return g ->
    (g <> 0 -> Rows result = [] -> ReduceViewResult name params result = Panic)
    /\ (g = 0 -> Rows result = [] ->
        exists x, ReduceViewResult name params result
                  = Return (set_Rows result [rowOut VNil x], None))
    /\ (g = -1 -> name = "_count" ->
        (ReduceViewResult name params result <> Panic <-> Rows result <> []))
    /\ (g <> 0 -> g <> -1 ->
        Exists (fun row => forall l, Key row <> VArr l) (Rows result) ->
        ReduceViewResult name params result = Panic)
    /\ (0 < g -> name = "_count" -> Rows result <> [] ->
        Forall (fun row => exists l, Key row = VArr l
                                     /\ g <= Z.of_nat (length l)) (Rows result) ->
        ReduceViewResult name params result <> Panic).
Proof.
  intros name f params result g Hf Hg. split; [|split; [|split; [|split]]].
  - intros Hg0 Hrows. by apply (ReduceViewResult_no_rows name f params result g).
  - intros -> Hrows. unfold ReduceViewResult. rewrite Hf, Hg, Hrows. simpl.
    destruct (ReduceFunc_cases _ _ Hf) as [[_ ->] | [_ ->]]; simpl; eauto.
  - intros -> ->. split.
    + intros Hret Hrows. apply Hret.
      by apply (ReduceViewResult_no_rows "_count" f params result (-1)).
    + intros Hne.
      by rewrite (ReduceViewResult_count_returns params result (-1) _ Hg
                    ltac:(lia) Hne (projectKeys_whole _)).
  - intros Hg0 Hg1 Hex.
    by apply (ReduceViewResult_not_array name f params result g).
  - intros Hpos -> Hne Hall.
    destruct (projectKeys_arrays g (Rows result) ltac:(lia) Hall) as [prs Hprs].
    by rewrite (ReduceViewResult_count_returns params result g prs Hg
                  ltac:(lia) Hne Hprs).
Qed.

(** C10 as the specification states it does not hold: a non-empty row
    sequence is not enough under [group_level]; a key that is no array
    makes [keyPrefix] panic. *)
Lemma grouped_reduction_panics_on_rows :
  Rows (resultOf [rowK 1]) <> []
  /\ groupLevelOf (query [("group_level", VUint 1)]) = Return 1
  /\ ReduceViewResult "_count" (query [("group_level", VUint 1)])
       (resultOf [rowK 1]) = Panic.
Proof. split; [discriminate | split; reflexivity]. Qed.

Lemma grouped_reduction_needs_rows_witness :
  ReduceViewResult "_sum" (query [("group", VBool true)]) (resultOf []) = Panic.
Proof.
  exact (proj1 (grouped_reduction_needs_rows "_sum" sum_fun
                  (query [("group", VBool true)]) (resultOf []) (-1)
                  eq_refl eq_refl)
           ltac:(discriminate) eq_refl).
Defined.

(** ** Documents *)

(** C8 (as amended).  With [include_docs] (and without [reverse]) the
    document of every surviving row is fetched by the row's ID, decoded and
    attached to the row.  If a fetch fails, [ProcessViewResult] returns the
    error of the first one that does and stops there: no reduction, no
    recount of the rows.  If none fails, the later stages run on the rows
    with their documents, and the reduction may still return an error of
    its own; when no reduction is asked for, [ProcessViewResult] returns an
    error exactly when some fetch fails. *)
Theorem include_docs_fetches_or_aborts :
  forall (unmarshal : list Byte.byte -> value) (result : ViewResult)
         (params : Params) (bucket : Bucket) (reduceFunction : string)
         (startkey endkey : value) (inclusiveEnd : bool),
    param params "include_docs" = VBool true ->
    reverse (readOptions params) = false ->
    rangeOf params = (startkey, endkey, inclusiveEnd) ->
    let kept := trimEnd endkey inclusiveEnd
                  (applyLimit (limit (readOptions params))
                     (trimStart startkey (Rows result))) in
    (Forall (fun row => fetchError bucket row = None) kept ->
     ProcessViewResult unmarshal result params bucket reduceFunction
     = reduceStage (reduce (readOptions params)) reduceFunction params
         (set_Rows result (map (fetched unmarshal bucket) kept)))
    /\ (forall before row after e,
           kept = before ++ row :: after ->
           Forall (fun row => fetchError bucket row = None) before ->
           fetchError bucket row = Some e ->
           ProcessViewResult unmarshal result params bucket reduceFunction
           = Return (set_Rows result
                       (map (fetched unmarshal bucket) before ++ row :: after),
                     Some e))
    /\ (reduce (readOptions params) = false \/ reduceFunction = "" ->
        ((exists r e, ProcessViewResult unmarshal result params bucket
                        reduceFunction = Return (r, Some e))
         <-> Exists (fun row => fetchError bucket row <> None) kept)).
Proof.
  intros unmarshal result params bucket reduceFunction s e incl
    Hdocs Hrev Hrange kept.
  assert (Hopt : includeDocs (readOptions params) = true).
  { destruct params as [m|]; [|done].
    unfold readOptions. cbn [includeDocs]. by rewrite Hdocs. }
  assert (Hrun : ProcessViewResult unmarshal result params bucket reduceFunction
                 = match inlineDocs unmarshal bucket kept with
                   | (rows, Some err) => Return (set_Rows result rows, Some err)
                   | (rows, None) =>
                       reduceStage (reduce (readOptions params)) reduceFunction
                         params (set_Rows result rows)
                   end).
  { unfold ProcessViewResult. rewrite Hrev, Hrange, Hopt. cbn [Rows set_Rows].
    fold kept. by destruct (inlineDocs unmarshal bucket kept) as [rows [err|]]. }
  assert (Hall : Forall (fun row => fetchError bucket row = None) kept ->
                 ProcessViewResult unmarshal result params bucket reduceFunction
                 = reduceStage (reduce (readOptions params)) reduceFunction params
                     (set_Rows result (map (fetched unmarshal bucket) kept))).
  { intros H. by rewrite Hrun, (inlineDocs_all unmarshal bucket kept H). }
  assert (Hfail : forall before row after e,
             kept = before ++ row :: after ->
             Forall (fun row => fetchError bucket row = None) before ->
             fetchError bucket row = Some e ->
             ProcessViewResult unmarshal result params bucket reduceFunction
             = Return (set_Rows result
                         (map (fetched unmarshal bucket) before ++ row :: after),
                       Some e)).
  { intros before row after err Hkept Hbefore Hrow.
    by rewrite Hrun, Hkept,
      (inlineDocs_first_failure unmarshal bucket before row after err Hbefore Hrow). }
  split; [done|]. split; [done|].
  intros Hoff. split.
  - intros (r & err & Hret).
    destruct (fetch_cases bucket kept)
      as [Hok | (before & row & after & err' & Hkept & Hbefore & Hrow)].
    + rewrite (Hall Hok) in Hret. unfold reduceStage in Hret.
      assert (Hskip : reduce (readOptions params)
                      && negb (String.eqb reduceFunction "") = false).
      { destruct Hoff as [-> | ->]; [done|]. by rewrite andb_false_r. }
      by rewrite Hskip in Hret.
    + rewrite Hkept. apply Exists_app. right. apply Exists_cons. left. congruence.
  - intros Hex.
    destruct (fetch_cases bucket kept)
      as [Hok | (before & row & after & err' & Hkept & Hbefore & Hrow)].
    + exfalso. apply Exists_exists in Hex as (row & Hin & Hrow).
      rewrite Forall_forall in Hok. by apply Hrow, Hok.
    + eexists _, err'. by apply (Hfail before row after).
Qed.

(** C8 as the specification states it does not hold: with [include_docs]
    an error is returned although no fetch fails, when the reduce function
    is unknown. *)
Lemma include_docs_error_without_failed_fetch :
  fetchError oneDoc (rowK 1) = None
  /\ ProcessViewResult decode (resultOf [rowK 1])
       (query [("include_docs", VBool true)]) oneDoc "_stats"
     = Return (resultOf [set_Doc (rowK 1) (VObj [])], Some errUnsupportedReduce).
Proof. split; reflexivity. Qed.

Lemma include_docs_witness :
  ProcessViewResult decode (resultOf rows123)
    (query [("include_docs", VBool true); ("endkey", VNum 2)]) oneDoc ""
  = Return (resultOf [set_Doc (rowK 1) (VObj []); set_Doc (rowK 2) (VObj [])],
            None).
Proof.
  exact (proj1 (include_docs_fetches_or_aborts decode (resultOf rows123)
                  (query [("include_docs", VBool true); ("endkey", VNum 2)])
                  oneDoc "" VNil (VNum 2) true eq_refl eq_refl eq_refl)
           ltac:(repeat constructor)).
Defined.

(** ** Idempotence *)




(** ** Further properties: the trims on any input *)

Module SearchAny.

(** What the loop of [sort.Search] keeps for any predicate. *)
Lemma search_loop_any (f : nat -> bool) :
  forall (turns i j : nat),
    (j - i <= turns)%nat -> (i <= j)%nat ->
    let r := search_loop turns f i j in
    (i <= r)%nat /\ (r <= j)%nat
    /\ ((i < r)%nat -> f (r - 1)%nat = false)
    /\ ((r < j)%nat -> f r = true).
Proof.
  intros turns. induction turns as [|turns IH]; intros i j Hturns Hij; simpl.
  - repeat split; lia.
  - destruct (Nat.ltb_spec i j) as [Hlt|Hge]; [|repeat split; lia].
    destruct (div2_between i j Hlt) as [Hih Hhj].
    destruct (f (Nat.div2 (i + j))) eqn:Hf; simpl.
    + destruct (IH i (Nat.div2 (i + j)) ltac:(lia) Hih) as (H1 & H2 & H3 & H4).
      split; [lia|]. split; [lia|]. split; [done|].
      intros Hr. destruct (Nat.eq_dec (search_loop turns f i (Nat.div2 (i + j)))
                             (Nat.div2 (i + j))) as [->|Hne]; [done|].
      apply H4. lia.
    + destruct (IH (Nat.div2 (i + j) + 1)%nat j ltac:(lia) ltac:(lia))
        as (H1 & H2 & H3 & H4).
      split; [lia|]. split; [lia|]. split; [|done].
      intros _.
      destruct (Nat.eq_dec (search_loop turns f (Nat.div2 (i + j) + 1) j)
                  (Nat.div2 (i + j) + 1)%nat) as [->|Hne].
      * by replace (Nat.div2 (i + j) + 1 - 1)%nat with (Nat.div2 (i + j)) by lia.
      * apply H3. lia.
Qed.

Lemma Search_any (n : nat) (f : nat -> bool) :
  (Search n f <= n)%nat
  /\ ((0 < Search n f)%nat -> f (Search n f - 1)%nat = false)
  /\ ((Search n f < n)%nat -> f (Search n f) = true).
Proof.
  destruct (search_loop_any f n 0%nat n ltac:(lia) ltac:(lia)) as (_ & H2 & H3 & H4).
  by repeat split.
Qed.

Lemma trimStart_drop s rows :
  exists i, (i <= length rows)%nat /\ trimStart s rows = drop i rows
            /\ (is_nil s = false ->
                i = Search (length rows) (at_index (fromStart s) rows)).
Proof.
  unfold trimStart. destruct (is_nil s); simpl.
  - exists 0%nat. split; [lia|]. by split.
  - eexists. split; [apply Search_any|]. by split.
Qed.

Lemma trimEnd_take e incl rows :
  exists k, (k <= length rows)%nat /\ trimEnd e incl rows = take k rows
            /\ (is_nil e = false ->
                k = Search (length rows) (at_index (pastEnd e incl) rows)).
Proof.
  unfold trimEnd. destruct (is_nil e); simpl.
  - exists (length rows). split; [lia|]. split; [by rewrite take_ge | done].
  - rewrite threshold_limit. eexists. split; [apply Search_any|]. by split.
Qed.

Lemma applyLimit_take lim rows :
  exists m, (m <= length rows)%nat /\ applyLimit lim rows = take m rows.
Proof.
  unfold applyLimit. destruct (_ && _) eqn:H.
  - apply andb_true_iff in H as [_ H]. apply Z.ltb_lt in H.
    exists (Z.to_nat lim). split; [lia|done].
  - exists (length rows). split; [lia | by rewrite take_ge].
Qed.

End SearchAny.
Export SearchAny.

(** X1.  Whatever the rows and the keys, sorted or not, the indices that
    [sort.Search] returns do not exceed the length it is given, so the
    slice expressions of the trims stay in range, and what the three trims
    keep is one segment [rows[i:j]] of the rows. *)
Theorem trims_keep_a_segment :
  (forall (n : nat) (f : nat -> bool), (Search n f <= n)%nat)
  /\ (forall (startkey endkey : value) (inclusiveEnd : bool) (lim : Z)
             (rows : list ViewRow),
         exists i j : nat,
           (i <= j)%nat /\ (j <= length rows)%nat
           /\ trimEnd endkey inclusiveEnd
                (applyLimit lim (trimStart startkey rows))
              = take (j - i) (drop i rows)).
Proof.
  split; [intros; apply Search_any|].
  intros s e incl lim rows.
  destruct (trimStart_drop s rows) as (i & Hi & -> & _).
  destruct (applyLimit_take lim (drop i rows)) as (m & Hm & ->).
  destruct (trimEnd_take e incl (take m (drop i rows))) as (k & Hk & -> & _).
  rewrite length_take in Hk. rewrite length_drop in Hm, Hk.
  exists i, (i + k)%nat. split; [lia|]. split; [lia|].
  rewrite take_take. f_equal. lia.
Qed.

(** X2.  On any rows, sorted or not, and with the key at hand: the first
    row the start trim keeps is at or after the start key and the row just
    before it is not; the last row the end trim keeps is not past the end
    key and the first row it cuts is. *)
Theorem trims_meet_the_boundaries :
  forall (startkey endkey : value) (inclusiveEnd : bool) (rows : list ViewRow),
    startkey <> VNil -> endkey <> VNil ->
    (forall row, head (trimStart startkey rows) = Some row ->
                 fromStart startkey row = true)
    /\ (forall i row, (length (trimStart startkey rows) + S i)%nat = length rows ->
                      rows !! i = Some row -> fromStart startkey row = false)
    /\ (forall row, last (trimEnd endkey inclusiveEnd rows) = Some row ->
                    pastEnd endkey inclusiveEnd row = false)
    /\ (forall row, rows !! length (trimEnd endkey inclusiveEnd rows) = Some row ->
                    pastEnd endkey inclusiveEnd row = true).
Proof.
  intros s e incl rows Hs He.
  assert (Hns : is_nil s = false) by (by destruct s).
  assert (Hne : is_nil e = false) by (by destruct e).
  destruct (trimStart_drop s rows) as (i & Hi & Hstart & Hsearch).
  destruct (trimEnd_take e incl rows) as (k & Hk & Hend & Hsearch').
  specialize (Hsearch Hns). specialize (Hsearch' Hne).
  destruct (Search_any (length rows) (at_index (fromStart s) rows)) as (_ & Hlow & Hhigh).
  destruct (Search_any (length rows) (at_index (pastEnd e incl) rows)) as (_ & Hlow' & Hhigh').
  rewrite <- Hsearch in Hlow, Hhigh. rewrite <- Hsearch' in Hlow', Hhigh'.
  rewrite Hstart, Hend. unfold at_index in *. repeat split.
  - intros row Hrow. rewrite head_lookup, lookup_drop, Nat.add_0_r in Hrow.
    assert (Hlt : (i < length rows)%nat) by (by eapply lookup_lt_Some).
    specialize (Hhigh Hlt). by rewrite Hrow in Hhigh.
  - intros i' row Hlen Hrow. rewrite length_drop in Hlen.
    assert (i' = (i - 1)%nat) as -> by lia.
    specialize (Hlow ltac:(lia)). by rewrite Hrow in Hlow.
  - intros row Hrow. rewrite last_lookup, length_take in Hrow.
    apply lookup_take_Some in Hrow as [Hrow Hlt].
    replace (Nat.pred (k `min` length rows)) with (k - 1)%nat in Hrow by lia.
    specialize (Hlow' ltac:(lia)). by rewrite Hrow in Hlow'.
  - intros row Hrow. rewrite length_take in Hrow.
    replace (k `min` length rows)%nat with k in Hrow by lia.
    assert (Hlt : (k < length rows)%nat) by (by eapply lookup_lt_Some).
    specialize (Hhigh' Hlt). by rewrite Hrow in Hhigh'.
Qed.

Lemma trims_meet_the_boundaries_witness :
  fromStart (VNum 2) (rowK 2) = true
  /\ pastEnd (VNum 2) true (rowK 2) = false.
Proof.
  destruct (trims_meet_the_boundaries (VNum 2) (VNum 2) true
              [rowK 3; rowK 1; rowK 2] ltac:(discriminate) ltac:(discriminate))
    as (Hfirst & _ & Hlast & _).
  split; [exact (Hfirst (rowK 2) eq_refl) | exact (Hlast (rowK 2) eq_refl)].
Defined.

(** ** Further properties: what a call returns *)

Module ReturnFacts.

Lemma emitGroups_no_error f groups e :
  (forall rs e, f rs <> Return (inr e)) ->
  emitGroups f groups <> Return (inr e).
Proof.
  intros Hf. induction groups as [|[key members] groups IH]; simpl; [done|].
  destruct (f (map snd members)) as [[outRow|e']|] eqn:Hr; simpl.
  - destruct (emitGroups f groups) as [[out|e'']|]; simpl.
    + done.
    + intros [= ->]. by apply IH.
    + done.
  - by destruct (Hf _ _ Hr).
  - done.
Qed.

(** The two ways [ReduceViewResult] returns: the error of an unknown name
    with the result as it was, or new rows in the result and no error. *)
Lemma ReduceViewResult_returns name params result r e :
  ReduceViewResult name params result = Return (r, e) ->
  (ReduceFunc name = inr errUnsupportedReduce
   /\ r = result /\ e = Some errUnsupportedReduce)
  \/ ((exists f, ReduceFunc name = inl f)
      /\ r = set_Rows result (Rows r) /\ e = None).
Proof.
  intros Hret. destruct (ReduceFunc name) as [f|err] eqn:Hf.
  - right. split; [eauto|].
    destruct (groupLevelOf params) as [g|] eqn:Hg;
      [|unfold ReduceViewResult in Hret; by rewrite Hf, Hg in Hret].
    destruct (Z.eq_dec g 0) as [->|Hg0].
    + unfold ReduceViewResult in Hret. rewrite Hf, Hg in Hret. simpl in Hret.
      destruct (f (Rows result)) as [row|] eqn:Hr; [|done].
      destruct (builtin_row name f _ row Hf Hr) as [v ->]. simpl in Hret.
      by injection Hret as <- <-.
    + destruct (Rows result) as [|row0 rows0] eqn:Hrows.
      { by rewrite (ReduceViewResult_no_rows name f params result g Hf Hg Hg0 Hrows)
          in Hret. }
      assert (Hne : Rows result <> []) by (by rewrite Hrows).
      clear Hrows.
      destruct (projectKeys_cases g (Rows result)) as [[prs Hprs] | Hex];
        [|by rewrite (ReduceViewResult_unprojectable name f params result g
                        Hf Hg Hg0 Hex) in Hret].
      rewrite (ReduceViewResult_grouped name f params result g prs
                 Hf Hg Hg0 Hne Hprs) in Hret.
      destruct (emitGroups f (keyGroups prs)) as [[out|err]|] eqn:Hout;
        simpl in Hret; try done.
      * by injection Hret as <- <-.
      * by destruct (emitGroups_no_error f (keyGroups prs) err
                       (builtin_no_error name f Hf)).
  - left. unfold ReduceViewResult in Hret. rewrite Hf in Hret.
    injection Hret as <- <-.
    unfold ReduceFunc in Hf. repeat destruct (String.eqb _ _); try done.
    by injection Hf as <-.
Qed.

Lemma reduceStage_returns b name params result r err :
  reduceStage b name params result = Return (r, err) ->
  match err with
  | None => TotalRows r = Z.of_nat (length (Rows r))
  | Some _ => r = result
  end.
Proof.
  unfold reduceStage. destruct (b && negb (String.eqb name "")).
  - destruct (ReduceViewResult name params result) as [[r' e]|] eqn:Hred; [|done].
    destruct (ReduceViewResult_returns name params result r' e Hred)
      as [(_ & -> & ->) | (_ & _ & ->)]; simpl.
    + by intros [= <- <-].
    + by intros [= <- <-].
  - simpl. by intros [= <- <-].
Qed.

Lemma inlineDocs_fields unmarshal bucket rows :
  map ID (fst (inlineDocs unmarshal bucket rows)) = map ID rows
  /\ map Key (fst (inlineDocs unmarshal bucket rows)) = map Key rows
  /\ map Value (fst (inlineDocs unmarshal bucket rows)) = map Value rows.
Proof.
  induction rows as [|row rows (IH1 & IH2 & IH3)]; simpl; [done|].
  destruct (GetRaw bucket (ID row)) as [[raw cas] [e|]]; simpl; [done|].
  destruct (inlineDocs unmarshal bucket rows) as [rest e]. simpl in *.
  by rewrite IH1, IH2, IH3.
Qed.

Lemma inlineDocs_docs unmarshal bucket rows :
  snd (inlineDocs unmarshal bucket rows) = None ->
  Forall (fun row => Doc row <> None) (fst (inlineDocs unmarshal bucket rows)).
Proof.
  induction rows as [|row rows IH]; simpl; [by constructor|].
  destruct (GetRaw bucket (ID row)) as [[raw cas] [e|]]; simpl; [done|].
  destruct (inlineDocs unmarshal bucket rows) as [rest e]. simpl in *.
  intros He. constructor; [done | by apply IH].
Qed.

End ReturnFacts.
Export ReturnFacts.

(** X3.  Whenever [ProcessViewResult] returns without error, [TotalRows]
    is the number of rows it returns; whenever it returns an error,
    [TotalRows] is the one of the result it was given. *)
Theorem TotalRows_counts_the_rows :
  forall (unmarshal : list Byte.byte -> value) (result : ViewResult)
         (params : Params) (bucket : Bucket) (reduceFunction : string)
         (r : ViewResult) (err : option error),
    ProcessViewResult unmarshal result params bucket reduceFunction
    = Return (r, err) ->
    match err with
    | None => TotalRows r = Z.of_nat (length (Rows r))
    | Some _ => TotalRows r = TotalRows result
    end.
Proof.
  intros unmarshal result params bucket reduceFunction r err.
  unfold ProcessViewResult. destruct (reverse (readOptions params)).
  { by intros [= <- <-]. }
  destruct (rangeOf params) as [[s e] incl].
  destruct (includeDocs (readOptions params)).
  - destruct (inlineDocs unmarshal bucket _) as [rows [e'|]].
    + by intros [= <- <-].
    + intros Hret. apply reduceStage_returns in Hret.
      destruct err; [by subst r | done].
  - intros Hret. apply reduceStage_returns in Hret.
    destruct err; [by subst r | done].
Qed.

Lemma TotalRows_counts_the_rows_witness :
  TotalRows (resultOf [rowOut (VArr [VStr "a"]) 2; rowOut (VArr [VStr "b"]) 1])
  = Z.of_nat (length [rowOut (VArr [VStr "a"]) 2; rowOut (VArr [VStr "b"]) 1]).
Proof.
  exact (TotalRows_counts_the_rows decode
           {| TotalRows := 7; Rows := rowsAAB |}
           (query [("group_level", VUint 1)]) oneDoc "_count"
           (resultOf [rowOut (VArr [VStr "a"]) 2; rowOut (VArr [VStr "b"]) 1])
           None eq_refl).
Defined.

(** X4.  The inliner changes nothing but [Doc]: the rows it leaves, after a
    failed fetch as well, have the IDs, keys and values of the rows it was
    given, in the same order; and when no fetch fails every row has a
    document. *)
Theorem inliner_touches_only_docs :
  forall (unmarshal : list Byte.byte -> value) (bucket : Bucket)
         (rows : list ViewRow),
    map ID (fst (inlineDocs unmarshal bucket rows)) = map ID rows
    /\ map Key (fst (inlineDocs unmarshal bucket rows)) = map Key rows
    /\ map Value (fst (inlineDocs unmarshal bucket rows)) = map Value rows
    /\ (snd (inlineDocs unmarshal bucket rows) = None ->
        Forall (fun row => Doc row <> None)
          (fst (inlineDocs unmarshal bucket rows))).
Proof.
  intros unmarshal bucket rows.
  destruct (inlineDocs_fields unmarshal bucket rows) as (H1 & H2 & H3).
  repeat (split; [done|]). apply inlineDocs_docs.
Qed.

Lemma inliner_touches_only_docs_witness :
  Forall (fun row => Doc row <> None)
    (fst (inlineDocs decode oneDoc rows123)).
Proof.
  exact (proj2 (proj2 (proj2 (inliner_touches_only_docs decode oneDoc rows123)))
           eq_refl).
Defined.

(** X5.  [ReduceViewResult] returns an error only for a name other than
    ["_count"] and ["_sum"]: the built-in reductions return rows or panic.
    The error is the unsupported-reduce-function error and the result is
    the one given. *)
Theorem reduce_errors_only_for_unknown_names :
  forall (name : string) (params : Params) (result r : ViewResult) (e : error),
    ReduceViewResult name params result = Return (r, Some e) ->
    r = result /\ e = errUnsupportedReduce
    /\ name <> "_count" /\ name <> "_sum".
Proof.
  intros name params result r e Hret.
  destruct (ReduceViewResult_returns name params result r (Some e) Hret)
    as [(Hf & -> & [= ->]) | (_ & _ & ?)]; [|done].
  repeat split; intros ->; discriminate Hf.
Qed.

Lemma reduce_errors_only_for_unknown_names_witness :
  ReduceViewResult "_avg" (query [("group", VBool true)]) (resultOf rows123)
  = Return (resultOf rows123, Some errUnsupportedReduce)
  /\ "_avg" <> "_count" /\ "_avg" <> "_sum".
Proof.
  split; [reflexivity|].
  exact (proj2 (proj2 (reduce_errors_only_for_unknown_names "_avg"
                         (query [("group", VBool true)]) (resultOf rows123)
                         (resultOf rows123) errUnsupportedReduce eq_refl))).
Defined.

(** X6.  With a known reduce function, a [group] parameter that is neither
    absent nor a bool, and a [group_level] parameter (read when [group] is
    absent or false) that is neither absent nor a uint64, make
    [ReduceViewResult] panic, whatever the rows: the type assertions of
    lines 129 and 132 have no second result. *)
Theorem reduce_panics_on_mistyped_grouping :
  forall (name : string) (f : reduceFun) (params : Params) (result : ViewResult),
    ReduceFunc name = inl f ->
    (is_nil (param params "group") = false
     /\ as_bool (param params "group") = None)
    \/ ((param params "group" = VNil \/ param params "group" = VBool false)
        /\ is_nil (param params "group_level") = false
        /\ as_uint64 (param params "group_level") = None) ->
    ReduceViewResult name params result = Panic.
Proof.
  intros name f params result Hf Hcase.
  assert (Hg : groupLevelOf params = Panic).
  { unfold groupLevelOf.
    destruct Hcase as [[Hn Hb] | (Hgroup & Hn & Hu)].
    - rewrite Hn. simpl. by destruct (param params "group") as [| [] | | | | |].
    - rewrite Hn. simpl.
      assert (Hlevel : match param params "group_level" with
                       | VUint n => Return (int_of_uint64 n)
                       | _ => Panic
                       end = Panic)
        by (by destruct (param params "group_level")).
      rewrite Hlevel. by destruct Hgroup as [-> | ->]. }
  unfold ReduceViewResult. by rewrite Hf, Hg.
Qed.

Lemma reduce_panics_on_mistyped_grouping_witness :
  ReduceViewResult "_count" (query [("group_level", VNum 1)]) (resultOf rowsAAB)
  = Panic.
Proof.
  exact (reduce_panics_on_mistyped_grouping "_count" count_fun
           (query [("group_level", VNum 1)]) (resultOf rowsAAB) eq_refl
           (or_intror (conj (or_introl eq_refl) (conj eq_refl eq_refl)))).
Defined.

(** ** Further properties: what the groups add up to *)

Module GroupFacts.

(** How a built-in reduction returns rows. *)
Lemma ReduceViewResult_ok name f params result r :
  ReduceFunc name = inl f ->
  ReduceViewResult name params result = Return (r, None) ->
  exists g, groupLevelOf params = Return g
    /\ ((g = 0 /\ exists row, f (Rows result) = Return (inl row)
                              /\ r = set_Rows result [row])
        \/ (g <> 0 /\ Rows result <> []
            /\ exists prs out,
                 projectKeys g (Rows result) = Return prs
                 /\ emitGroups f (keyGroups prs) = Return (inl out)
                 /\ r = set_Rows result out)).
Proof.
  intros Hf Hret.
  destruct (groupLevelOf params) as [g|] eqn:Hg;
    [|unfold ReduceViewResult in Hret; by rewrite Hf, Hg in Hret].
  exists g. split; [done|].
  destruct (Z.eq_dec g 0) as [->|Hg0].
  - left. split; [done|].
    unfold ReduceViewResult in Hret. rewrite Hf, Hg in Hret. simpl in Hret.
    destruct (f (Rows result)) as [[row|e]|]; simpl in Hret; try done.
    injection Hret as <-. eauto.
  - right. split; [done|].
    destruct (Rows result) as [|row0 rows0] eqn:Hrows.
    { by rewrite (ReduceViewResult_no_rows name f params result g Hf Hg Hg0 Hrows)
        in Hret. }
    assert (Hne : Rows result <> []) by (by rewrite Hrows).
    rewrite <- Hrows. clear Hrows. split; [done|].
    destruct (projectKeys_cases g (Rows result)) as [[prs Hprs] | Hex];
      [|by rewrite (ReduceViewResult_unprojectable name f params result g
                      Hf Hg Hg0 Hex) in Hret].
    rewrite (ReduceViewResult_grouped name f params result g prs
               Hf Hg Hg0 Hne Hprs) in Hret.
    destruct (emitGroups f (keyGroups prs)) as [[out|err]|] eqn:Hout;
      simpl in Hret; try done.
    injection Hret as <-. eauto.
Qed.



Lemma emitGroups_count_total groups out :
  emitGroups count_fun groups = Return (inl out) ->
  sumValues out = Z.of_nat (length (concat (map snd groups))).
Proof.
  rewrite emitGroups_count. intros [= <-].
  induction groups as [|[key members] groups IH]; simpl; [done|].
  rewrite length_app. unfold sumValues in *. simpl. rewrite IH. lia.
Qed.



(** *** Projections keep the order *)





(** *** The group keys ascend *)





(** *** The members of a group *)


End GroupFacts.
Export GroupFacts.

(** X7.  The counts of a [_count] reduction add up to the number of rows
    reduced: grouped or not, when [ReduceViewResult] returns, the values of
    the rows it leaves sum to the number of rows it was given. *)
Theorem counts_add_up :
  forall (params : Params) (result r : ViewResult),
    ReduceViewResult "_count" params result = Return (r, None) ->
    sumValues (Rows r) = Z.of_nat (length (Rows result)).
Proof.
  intros params result r Hret.
  destruct (ReduceViewResult_ok "_count" count_fun params result r eq_refl Hret)
    as (g & Hg & [(-> & row & Hrow & ->)
                 | (Hg0 & Hne & prs & out & Hprs & Hout & ->)]).
  - injection Hrow as <-. unfold sumValues, float64_of_len. simpl. lia.
  - simpl. rewrite (emitGroups_count_total _ out Hout).
    destruct (projectKeys_rows g _ prs Hprs) as [Hmap _].
    assert (Hprs_ne : prs <> []).
    { intros ->. simpl in Hmap. by rewrite <- Hmap in Hne. }
    destruct (keyGroups_facts prs Hprs_ne) as (_ & -> & _).
    by rewrite <- Hmap, length_map.
Qed.

Lemma counts_add_up_witness :
  sumValues [rowOut (VArr [VStr "a"]) 2; rowOut (VArr [VStr "b"]) 1]
  = Z.of_nat (length rowsAAB).
Proof.
  exact (counts_add_up (query [("group_level", VUint 1)]) (resultOf rowsAAB)
           (set_Rows (resultOf rowsAAB)
              [rowOut (VArr [VStr "a"]) 2; rowOut (VArr [VStr "b"]) 1])
           eq_refl).
Defined.







(** ** Further properties: how the parameters are read *)

Module ParamFacts.

Lemma param_setParam_eq k v params : param (setParam k v params) k = v.
Proof. unfold setParam, param. by rewrite lookup_insert_eq. Qed.

Lemma param_setParam_ne k k' v params :
  k' <> k -> param (setParam k v params) k' = param params k'.
Proof.
  intros Hk. unfold setParam, param.
  rewrite lookup_insert_ne by done. by destruct params.
Qed.

Lemma param_withoutParam_eq k params : param (withoutParam k params) k = VNil.
Proof. destruct params as [m|]; [|done]. simpl. by rewrite lookup_delete_eq. Qed.

Lemma param_withoutParam_ne k k' params :
  k' <> k -> param (withoutParam k params) k' = param params k'.
Proof.
  intros Hk. destruct params as [m|]; [|done]. simpl.
  by rewrite lookup_delete_ne.
Qed.

(** The options are read through [params[k]] only: the nil map reads like
    an empty one. *)
Lemma readOptions_param params :
  readOptions params
  = {| includeDocs := default false (as_bool (param params "include_docs"));
       limit := match as_uint64 (param params "limit") with
                | Some plimit => int_of_uint64 plimit
                | None => 0
                end;
       reverse := default false (as_bool (param params "reverse"));
       reduce := default true (as_bool (param params "reduce")) |}.
Proof. by destruct params. Qed.

Lemma ReduceViewResult_params name params params' result :
  groupLevelOf params = groupLevelOf params' ->
  ReduceViewResult name params result = ReduceViewResult name params' result.
Proof. intros H. unfold ReduceViewResult. by rewrite H. Qed.

(** [ProcessViewResult] depends on the parameters through the options, the
    range and the group level. *)
Lemma ProcessViewResult_params unmarshal result params params' bucket name :
  includeDocs (readOptions params) = includeDocs (readOptions params') ->
  reverse (readOptions params) = reverse (readOptions params') ->
  reduce (readOptions params) = reduce (readOptions params') ->
  (forall rows, applyLimit (limit (readOptions params)) rows
                = applyLimit (limit (readOptions params')) rows) ->
  rangeOf params = rangeOf params' ->
  groupLevelOf params = groupLevelOf params' ->
  ProcessViewResult unmarshal result params bucket name
  = ProcessViewResult unmarshal result params' bucket name.
Proof.
  intros Hdocs Hrev Hred Hlim Hrange Hgroup.
  unfold ProcessViewResult, reduceStage.
  rewrite Hdocs, Hrev, Hred, Hrange.
  destruct (rangeOf params') as [[s e] incl]. cbn [Rows set_Rows].
  rewrite Hlim.
  destruct (reverse (readOptions params')); [done|].
  destruct (includeDocs (readOptions params')).
  - destruct (inlineDocs unmarshal bucket _) as [rows [err|]]; [done|].
    by rewrite (ReduceViewResult_params name params params' _ Hgroup).
  - by rewrite (ReduceViewResult_params name params params' _ Hgroup).
Qed.

(** Parameters that read alike under every recognised name give the same
    result. *)
Lemma ProcessViewResult_reads unmarshal result params params' bucket name :
  Forall (fun k => param params k = param params' k) recognised ->
  ProcessViewResult unmarshal result params bucket name
  = ProcessViewResult unmarshal result params' bucket name.
Proof.
  intros Hall. unfold recognised in Hall.
  repeat (apply Forall_cons in Hall as [? Hall]).
  apply ProcessViewResult_params; intros;
    rewrite ?readOptions_param; unfold rangeOf, groupLevelOf;
    cbn [includeDocs reverse reduce limit];
    repeat match goal with
           | H : param params _ = param params' _ |- _ => rewrite H; clear H
           end;
    reflexivity.
Qed.

End ParamFacts.
Export ParamFacts.

(** X11.  A parameter under a name the code does not read changes nothing:
    [ProcessViewResult] returns the same with and without it. *)
Theorem unrecognised_parameters_are_ignored :
  forall (unmarshal : list Byte.byte -> value) (result : ViewResult)
         (params : Params) (bucket : Bucket) (reduceFunction : string)
         (k : string) (v : value),
    k ∉ recognised ->
    ProcessViewResult unmarshal result (setParam k v params) bucket reduceFunction
    = ProcessViewResult unmarshal result params bucket reduceFunction.
Proof.
  intros unmarshal result params bucket reduceFunction k v Hk.
  apply ProcessViewResult_reads. apply Forall_forall. intros k' Hk'.
  apply param_setParam_ne. by intros ->.
Qed.

Lemma unrecognised_parameters_are_ignored_witness :
  ProcessViewResult decode (resultOf rows12345)
    (setParam "stale" (VStr "ok") (query [("startkey", VNum 4)])) oneDoc ""
  = ProcessViewResult decode (resultOf rows12345)
      (query [("startkey", VNum 4)]) oneDoc "".
Proof.
  exact (unrecognised_parameters_are_ignored decode (resultOf rows12345)
           (query [("startkey", VNum 4)]) oneDoc "" "stale" (VStr "ok")
           ltac:(apply (bool_decide_unpack _); vm_compute; exact I)).
Defined.

(** Rewrites the reads of parameters that were set or removed. *)
Ltac reads :=
  repeat first
    [ rewrite param_setParam_eq
    | rewrite param_withoutParam_eq
    | rewrite param_setParam_ne by done
    | rewrite param_withoutParam_ne by done ].

(** X12.  A [limit] that is no uint64, or is 0, or is 2^63 or more (a
    negative [int] after the conversion), limits nothing:
    [ProcessViewResult] returns the same as without it. *)
Theorem useless_limits_are_ignored :
  forall (unmarshal : list Byte.byte -> value) (result : ViewResult)
         (params : Params) (bucket : Bucket) (reduceFunction : string),
    as_uint64 (param params "limit") = None
    \/ (exists n, param params "limit" = VUint n
                  /\ (n = 0 \/ 2 ^ 63 <= n < 2 ^ 64)) ->
    ProcessViewResult unmarshal result params bucket reduceFunction
    = ProcessViewResult unmarshal result (withoutParam "limit" params) bucket
        reduceFunction.
Proof.
  intros unmarshal result params bucket reduceFunction Hlim.
  apply ProcessViewResult_params;
    rewrite ?readOptions_param; unfold rangeOf, groupLevelOf;
    cbn [includeDocs reverse reduce limit]; reads; try reflexivity.
  intros rows. simpl.
  apply applyLimit_off.
  destruct Hlim as [-> | (n & -> & Hn)]; [lia|]. simpl.
  unfold int_of_uint64. destruct Hn as [-> | Hn]; [done|].
  rewrite Z.mod_small by lia. destruct (Z.ltb_spec n (2 ^ 63)); lia.
Qed.

Lemma useless_limits_are_ignored_witness :
  ProcessViewResult decode (resultOf rows12345)
    (query [("limit", VNum 2); ("endkey", VNum 4)]) oneDoc "_count"
  = ProcessViewResult decode (resultOf rows12345)
      (withoutParam "limit" (query [("limit", VNum 2); ("endkey", VNum 4)]))
      oneDoc "_count".
Proof.
  exact (useless_limits_are_ignored decode (resultOf rows12345)
           (query [("limit", VNum 2); ("endkey", VNum 4)]) oneDoc "_count"
           (or_introl eq_refl)).
Defined.

(** X13.  [start_key] and [end_key] stand in for [startkey] and [endkey]:
    a key given under the older name gives the result it gives under the
    newer one, and the older name is not read when the newer one has a
    value. *)
Theorem older_key_names_stand_in :
  forall (unmarshal : list Byte.byte -> value) (result : ViewResult)
         (params : Params) (bucket : Bucket) (reduceFunction : string)
         (k : value),
    ProcessViewResult unmarshal result
      (setParam "start_key" k (withoutParam "startkey" params)) bucket
      reduceFunction
    = ProcessViewResult unmarshal result
        (setParam "startkey" k (withoutParam "start_key" params)) bucket
        reduceFunction
    /\ ProcessViewResult unmarshal result
         (setParam "end_key" k (withoutParam "endkey" params)) bucket
         reduceFunction
       = ProcessViewResult unmarshal result
           (setParam "endkey" k (withoutParam "end_key" params)) bucket
           reduceFunction
    /\ (param params "startkey" <> VNil ->
        ProcessViewResult unmarshal result (setParam "start_key" k params)
          bucket reduceFunction
        = ProcessViewResult unmarshal result params bucket reduceFunction)
    /\ (param params "endkey" <> VNil ->
        ProcessViewResult unmarshal result (setParam "end_key" k params)
          bucket reduceFunction
        = ProcessViewResult unmarshal result params bucket reduceFunction).
Proof.
  intros unmarshal result params bucket reduceFunction k.
  split; [|split; [|split]].
  - apply ProcessViewResult_params; intros;
      rewrite ?readOptions_param; unfold rangeOf, groupLevelOf;
      cbn [includeDocs reverse reduce limit]; reads; try reflexivity.
    by destruct k.
  - apply ProcessViewResult_params; intros;
      rewrite ?readOptions_param; unfold rangeOf, groupLevelOf;
      cbn [includeDocs reverse reduce limit]; reads; try reflexivity.
    by destruct k.
  - intros Hs. apply ProcessViewResult_params; intros;
      rewrite ?readOptions_param; unfold rangeOf, groupLevelOf;
      cbn [includeDocs reverse reduce limit]; reads; try reflexivity.
    by destruct (param params "startkey").
  - intros He. apply ProcessViewResult_params; intros;
      rewrite ?readOptions_param; unfold rangeOf, groupLevelOf;
      cbn [includeDocs reverse reduce limit]; reads; try reflexivity.
    by destruct (param params "endkey").
Qed.

Lemma older_key_names_stand_in_witness :
  ProcessViewResult decode (resultOf rows12345)
    (setParam "start_key" (VNum 1) (query [("startkey", VNum 4)])) oneDoc ""
  = ProcessViewResult decode (resultOf rows12345)
      (query [("startkey", VNum 4)]) oneDoc "".
Proof.
  exact (proj1 (proj2 (proj2 (older_key_names_stand_in decode
                                (resultOf rows12345)
                                (query [("startkey", VNum 4)]) oneDoc ""
                                (VNum 1))))
           ltac:(discriminate)).
Defined.

(** X14.  The nil parameter map reads like the empty one, for every
    result, bucket and reduce function; with either and no reduce function
    the rows come back as they are, counted. *)
Theorem nil_params_read_as_empty :
  forall (unmarshal : list Byte.byte -> value) (result : ViewResult)
         (bucket : Bucket) (reduceFunction : string),
    ProcessViewResult unmarshal result None bucket reduceFunction
    = ProcessViewResult unmarshal result (Some ∅) bucket reduceFunction
    /\ ProcessViewResult unmarshal result None bucket ""
       = Return ({| TotalRows := Z.of_nat (length (Rows result));
                    Rows := Rows result |}, None).
Proof.
  intros unmarshal result bucket reduceFunction. split.
  - apply ProcessViewResult_reads. by repeat constructor.
  - by rewrite (ProcessViewResult_trims unmarshal result None bucket ""
                  VNil VNil true eq_refl eq_refl eq_refl (or_intror eq_refl)).
Qed.

(** ** Further properties: how the stages compose *)

Module ComposeFacts.

Lemma firstIndex_take p n : forall rows,
  firstIndex p (take n rows) = (n `min` firstIndex p rows)%nat.
Proof.
  induction n as [|n IH]; intros [|row rows]; simpl; try done.
  destruct (p row); [done|]. by rewrite IH.
Qed.

Lemma cutAtEnd_atMost e incl lim rows :
  cutAtEnd e incl (atMost lim rows) = atMost lim (cutAtEnd e incl rows).
Proof.
  unfold cutAtEnd, atMost. destruct (is_nil e), (0 <? lim); try done.
  rewrite firstIndex_take, !take_take. f_equal; lia.
Qed.

Lemma trimEnd_applyLimit e incl lim rows :
  sortedRows rows = true ->
  trimEnd e incl (applyLimit lim rows) = applyLimit lim (trimEnd e incl rows).
Proof.
  intros Hs.
  rewrite (trimEnd_sorted e incl (applyLimit lim rows))
    by (by apply sortedRows_applyLimit).
  rewrite (trimEnd_sorted e incl rows Hs), !applyLimit_atMost.
  apply cutAtEnd_atMost.
Qed.



End ComposeFacts.
Export ComposeFacts.

(** X15.  On rows sorted by key the limit and the end trim commute, so the
    pipeline without documents and reduction returns the first [limit]
    rows of the rows in range (all of them when [limit] is not positive). *)
Theorem limit_takes_the_first_rows_in_range :
  forall (unmarshal : list Byte.byte -> value) (result : ViewResult)
         (params : Params) (bucket : Bucket) (reduceFunction : string)
         (startkey endkey : value) (inclusiveEnd : bool),
    sortedRows (Rows result) = true ->
    rangeOf params = (startkey, endkey, inclusiveEnd) ->
    reverse (readOptions params) = false ->
    includeDocs (readOptions params) = false ->
    reduce (readOptions params) = false \/ reduceFunction = "" ->
    let inside := List.filter (inRange startkey endkey inclusiveEnd)
                    (Rows result) in
    let kept := atMost (limit (readOptions params)) inside in
    (forall rows lim,
        sortedRows rows = true ->
        trimEnd endkey inclusiveEnd (applyLimit lim rows)
        = applyLimit lim (trimEnd endkey inclusiveEnd rows))
    /\ ProcessViewResult unmarshal result params bucket reduceFunction
       = Return ({| TotalRows := Z.of_nat (length kept); Rows := kept |}, None).
Proof.
  intros unmarshal result params bucket reduceFunction s e incl
    Hs Hrange Hrev Hdocs Hred inside kept.
  split; [intros; by apply trimEnd_applyLimit|].
  rewrite (ProcessViewResult_trims unmarshal result params bucket
             reduceFunction s e incl Hrange Hrev Hdocs Hred).
  cbv zeta.
  rewrite trimEnd_applyLimit by (by apply sortedRows_trimStart).
  rewrite trimEnd_sorted by (by apply sortedRows_trimStart).
  rewrite trimStart_sorted by done.
  rewrite selection_filter by done. by rewrite applyLimit_atMost.
Qed.

Lemma limit_takes_the_first_rows_in_range_witness :
  ProcessViewResult decode (resultOf rows12345)
    (query [("startkey", VNum 2); ("endkey", VNum 5); ("limit", VUint 2)])
    oneDoc ""
  = Return (resultOf (map rowK [2; 3]), None).
Proof.
  exact (proj2 (limit_takes_the_first_rows_in_range decode (resultOf rows12345)
                  (query [("startkey", VNum 2); ("endkey", VNum 5);
                          ("limit", VUint 2)])
                  oneDoc "" (VNum 2) (VNum 5) true
                  eq_refl eq_refl eq_refl eq_refl (or_intror eq_refl))).
Defined.

(** X16.  On rows sorted by key, an ungrouped [_count] through the whole
    pipeline, without limit and documents, returns one row whose value is
    the number of rows in range. *)
Theorem count_counts_the_range :
  forall (unmarshal : list Byte.byte -> value) (result : ViewResult)
         (params : Params) (bucket : Bucket)
         (startkey endkey : value) (inclusiveEnd : bool),
    sortedRows (Rows result) = true ->
    rangeOf params = (startkey, endkey, inclusiveEnd) ->
    reverse (readOptions params) = false ->
    includeDocs (readOptions params) = false ->
    reduce (readOptions params) = true ->
    limit (readOptions params) <= 0 ->
    param params "group" = VNil -> param params "group_level" = VNil ->
    ProcessViewResult unmarshal result params bucket "_count"
    = Return ({| TotalRows := 1;
                 Rows := [rowOut VNil
                            (Z.of_nat
                               (length (List.filter
                                          (inRange startkey endkey inclusiveEnd)
                                          (Rows result))))] |}, None).
Proof.
  intros unmarshal result params bucket s e incl
    Hs Hrange Hrev Hdocs Hred Hlim Hgroup Hlevel.
  rewrite (ProcessViewResult_reduce unmarshal result params bucket "_count"
             s e incl Hrange Hrev Hdocs).
  rewrite (applyLimit_off _ _ Hlim).
  rewrite trimEnd_sorted by (by apply sortedRows_trimStart).
  rewrite trimStart_sorted by done. rewrite selection_filter by done.
  unfold reduceStage, ReduceViewResult.
  rewrite Hred, (groupLevelOf_none params Hgroup Hlevel). done.
Qed.

Lemma count_counts_the_range_witness :
  ProcessViewResult decode (resultOf rows12334)
    (query [("startkey", VNum 3)]) oneDoc "_count"
  = Return (resultOf [rowOut VNil 3], None).
Proof.
  exact (count_counts_the_range decode (resultOf rows12334)
           (query [("startkey", VNum 3)]) oneDoc (VNum 3) VNil true
           eq_refl eq_refl eq_refl eq_refl eq_refl
           ltac:(vm_compute; discriminate) eq_refl eq_refl).
Defined.





(** ** Further properties: the [sort.Interface] of a result *)

Module SortFacts.

Lemma index_Return rows i row :
  index rows i = Return row <->
  (0 <= i < Z.of_nat (length rows) /\ rows !! Z.to_nat i = Some row).
Proof.
  unfold index.
  destruct (Z.leb_spec 0 i), (Z.ltb_spec i (Z.of_nat (length rows))); simpl;
    try (split; [done | lia]).
  destruct (rows !! Z.to_nat i) as [row'|] eqn:Hrow.
  - split; [intros [= ->]; split; [lia|done] | intros [_ [= ->]]; done].
  - split; [done | intros [_ ?]; done].
Qed.

Lemma index_Panic rows i :
  index rows i = Panic <-> ~ (0 <= i < Z.of_nat (length rows)).
Proof.
  unfold index.
  destruct (Z.leb_spec 0 i), (Z.ltb_spec i (Z.of_nat (length rows))); simpl;
    try (split; [lia | done]).
  destruct (rows !! Z.to_nat i) as [row'|] eqn:Hrow; [split; [done|lia]|].
  apply lookup_ge_None in Hrow. lia.
Qed.

Lemma store_in_range rows i row :
  0 <= i < Z.of_nat (length rows) ->
  store rows i row = Return (<[Z.to_nat i := row]> rows).
Proof.
  intros Hi. unfold store.
  destruct (Z.leb_spec 0 i), (Z.ltb_spec i (Z.of_nat (length rows))); lia || done.
Qed.

(** The rows after [Swap], for indices in range. *)
Lemma Swap_in_range result i j atI atJ :
  index (Rows result) i = Return atI ->
  index (Rows result) j = Return atJ ->
  Swap result i j
  = Return (set_Rows result
              (<[Z.to_nat j := atI]> (<[Z.to_nat i := atJ]> (Rows result)))).
Proof.
  intros Hi Hj. unfold Swap. rewrite Hi, Hj. cbn -[store].
  apply index_Return in Hi as [Hi _]. apply index_Return in Hj as [Hj _].
  rewrite (store_in_range _ i) by done. cbn -[store].
  rewrite (store_in_range _ j) by (by rewrite length_insert). done.
Qed.

Lemma swapped_lookup (rows : list ViewRow) a b atA atB k :
  rows !! a = Some atA -> rows !! b = Some atB ->
  <[b := atA]> (<[a := atB]> rows) !! k
  = if decide (k = b) then Some atA
    else if decide (k = a) then Some atB else rows !! k.
Proof.
  intros Ha Hb.
  assert (a < length rows)%nat by (by eapply lookup_lt_Some).
  assert (b < length rows)%nat by (by eapply lookup_lt_Some).
  rewrite !list_lookup_insert, length_insert.
  repeat case_decide; try done; lia.
Qed.

Lemma Less_in_range result i j atI atJ :
  index (Rows result) i = Return atI ->
  index (Rows result) j = Return atJ ->
  Less result i j = Return (Collate (Key atI) (Key atJ) <? 0).
Proof. intros Hi Hj. unfold Less. by rewrite Hi, Hj. Qed.

Lemma index_in_range rows i :
  0 <= i < Z.of_nat (length rows) -> exists row, index rows i = Return row.
Proof.
  intros Hi. destruct (lookup_lt_is_Some_2 rows (Z.to_nat i) ltac:(lia)) as [row Hrow].
  exists row. by apply index_Return.
Qed.

End SortFacts.
Export SortFacts.

(** X19.  [Swap] with both indices in range exchanges the two rows and
    leaves every other row, the length and [TotalRows] as they are, so the
    rows after it are a permutation of the rows before. *)
Theorem Swap_exchanges_two_rows :
  forall (result : ViewResult) (i j : Z) (atI atJ : ViewRow),
    index (Rows result) i = Return atI ->
    index (Rows result) j = Return atJ ->
    exists swapped,
      Swap result i j = Return swapped
      /\ TotalRows swapped = TotalRows result
      /\ Len swapped = Len result
      /\ index (Rows swapped) i = Return atJ
      /\ index (Rows swapped) j = Return atI
      /\ (forall k, k <> i -> k <> j ->
                    index (Rows swapped) k = index (Rows result) k)
      /\ Permutation (Rows swapped) (Rows result).
Proof.
  intros result i j atI atJ Hi Hj.
  eexists. split; [by apply Swap_in_range|]. simpl.
  apply index_Return in Hi as [Hi Hri]. apply index_Return in Hj as [Hj Hrj].
  pose proof (fun k => swapped_lookup (Rows result) (Z.to_nat i) (Z.to_nat j)
                          atI atJ k Hri Hrj) as Hlook.
  split; [done|]. split; [unfold Len; simpl; by rewrite !length_insert|].
  split; [|split; [|split]].
  - apply index_Return. rewrite !length_insert. split; [done|].
    rewrite Hlook. repeat case_decide; congruence.
  - apply index_Return. rewrite !length_insert. split; [done|].
    rewrite Hlook. by rewrite decide_True.
  - intros k Hki Hkj. unfold index. rewrite !length_insert.
    destruct (_ && _) eqn:Hk; [|done].
    apply andb_true_iff in Hk as [Hk1 Hk2].
    apply Z.leb_le in Hk1. apply Z.ltb_lt in Hk2.
    rewrite Hlook. rewrite !decide_False by lia. done.
  - apply Permutation_inj. rewrite !length_insert. split; [done|].
    exists (fun k => if decide (k = Z.to_nat j) then Z.to_nat i
                     else if decide (k = Z.to_nat i) then Z.to_nat j else k).
    split.
    + intros a b. repeat case_decide; lia.
    + intros k. rewrite Hlook. repeat case_decide; congruence.
Qed.

Lemma Swap_exchanges_two_rows_witness :
  exists swapped,
    Swap (resultOf rows123) 0 2 = Return swapped
    /\ Permutation (Rows swapped) rows123.
Proof.
  destruct (Swap_exchanges_two_rows (resultOf rows123) 0 2 (rowK 1) (rowK 3)
              eq_refl eq_refl)
    as (swapped & Hswap & _ & _ & _ & _ & _ & Hperm).
  exists swapped. split; assumption.
Defined.

(** X20.  [Swap] panics when an index is out of range, and with both in
    range it undoes itself: the same [Swap] again gives back the result. *)
Theorem Swap_twice_is_no_Swap :
  forall (result : ViewResult) (i j : Z),
    (0 <= i < Len result /\ 0 <= j < Len result ->
     (swapped ← Swap result i j; Swap swapped i j) = Return result)
    /\ (~ (0 <= i < Len result /\ 0 <= j < Len result) ->
        Swap result i j = Panic).
Proof.
  intros result i j. unfold Len. split.
  - intros [Hi Hj].
    destruct (index_in_range _ i Hi) as [atI HatI].
    destruct (index_in_range _ j Hj) as [atJ HatJ].
    rewrite (Swap_in_range result i j atI atJ HatI HatJ). simpl.
    pose proof HatI as HatI'. pose proof HatJ as HatJ'.
    apply index_Return in HatI' as [_ Hri]. apply index_Return in HatJ' as [_ Hrj].
    pose proof (fun k => swapped_lookup (Rows result) (Z.to_nat i) (Z.to_nat j)
                            atI atJ k Hri Hrj) as Hlook.
    rewrite (Swap_in_range _ i j atJ atI).
    + destruct result as [total rows]. unfold set_Rows. simpl in *. do 2 f_equal.
      apply list_eq. intros k.
      rewrite !list_lookup_insert, !length_insert.
      assert (Z.to_nat i < length rows)%nat by lia.
      assert (Z.to_nat j < length rows)%nat by lia.
      repeat case_decide; try done; try lia; destruct_and?; subst; congruence.
    + apply index_Return. simpl. rewrite !length_insert. split; [done|].
      rewrite Hlook. repeat case_decide; congruence.
    + apply index_Return. simpl. rewrite !length_insert. split; [done|].
      rewrite Hlook. by rewrite decide_True.
  - intros Hout. unfold Swap.
    destruct (index (Rows result) i) as [atI|] eqn:HatI; [|done].
    destruct (index (Rows result) j) as [atJ|] eqn:HatJ; [|done].
    apply index_Return in HatI as [? _]. apply index_Return in HatJ as [? _].
    by destruct Hout.
Qed.

Lemma Swap_twice_is_no_Swap_witness :
  (swapped ← Swap (resultOf rows12345) 1 3; Swap swapped 1 3)
  = Return (resultOf rows12345).
Proof.
  exact (proj1 (Swap_twice_is_no_Swap (resultOf rows12345) 1 3)
           ltac:(vm_compute; repeat split; (reflexivity || discriminate))).
Defined.

(** X21.  The rows are sorted by key, as the trims and the grouping
    expect them, exactly when [Less] finds no inversion: [Less(j, i)] is
    false for all [i < j] in range.  That is what sorting the result
    through its [sort.Interface] establishes. *)
Theorem sorted_is_no_inversion :
  forall (result : ViewResult),
    sortedRows (Rows result) = true
    <-> (forall i j, 0 <= i -> i < j -> j < Len result ->
                     Less result j i = Return false).
Proof.
  intros result. unfold Len. split.
  - intros Hs i j Hi Hij Hj.
    destruct (index_in_range (Rows result) i ltac:(lia)) as [atI HatI].
    destruct (index_in_range (Rows result) j ltac:(lia)) as [atJ HatJ].
    rewrite (Less_in_range result j i atJ atI HatJ HatI). f_equal.
    apply index_Return in HatI as [_ Hri]. apply index_Return in HatJ as [_ Hrj].
    pose proof (sortedRows_lookup (Rows result) (Z.to_nat i) (Z.to_nat j) atI atJ
                  Hs ltac:(lia) Hri Hrj) as Hle.
    rewrite (Collate_opp (Key atI) (Key atJ)). apply Z.ltb_ge. lia.
  - intros Hless. apply sortedRows_of_lookup. intros a ra rb Ha Hb.
    assert (Hlt : (S a < length (Rows result))%nat) by (by eapply lookup_lt_Some).
    specialize (Hless (Z.of_nat a) (Z.of_nat (S a)) ltac:(lia) ltac:(lia) ltac:(lia)).
    rewrite (Less_in_range result _ _ rb ra) in Hless.
    + injection Hless as Hless. apply Z.ltb_ge in Hless.
      rewrite (Collate_opp (Key rb) (Key ra)). lia.
    + apply index_Return. rewrite Nat2Z.id. split; [lia|done].
    + apply index_Return. rewrite Nat2Z.id. split; [lia|done].
Qed.

Lemma sorted_is_no_inversion_witness :
  Less (resultOf rows12334) 3 2 = Return false.
Proof.
  exact (proj1 (sorted_is_no_inversion (resultOf rows12334)) eq_refl 2 3
           ltac:(lia) ltac:(lia) ltac:(vm_compute; reflexivity)).
Defined.

(** X22.  [Less] panics on an index out of range; on indices in range it
    is a strict weak order of the positions: never [Less(i, i)], never both
    [Less(i, j)] and [Less(j, i)], and both [Less] and its negation are
    transitive. *)
Theorem Less_is_a_strict_weak_order :
  forall (result : ViewResult) (i j k : Z),
    0 <= i < Len result -> 0 <= j < Len result -> 0 <= k < Len result ->
    Less result i i = Return false
    /\ (Less result i j = Return true -> Less result j i = Return false)
    /\ (Less result i j = Return true -> Less result j k = Return true ->
        Less result i k = Return true)
    /\ (Less result i j = Return false -> Less result j k = Return false ->
        Less result i k = Return false)
    /\ (forall out, ~ (0 <= out < Len result) ->
                    Less result out i = Panic /\ Less result i out = Panic).
Proof.
  intros result i j k Hi Hj Hk. unfold Len in *.
  destruct (index_in_range _ i Hi) as [atI HatI].
  destruct (index_in_range _ j Hj) as [atJ HatJ].
  destruct (index_in_range _ k Hk) as [atK HatK].
  rewrite (Less_in_range result i i atI atI HatI HatI),
    (Less_in_range result i j atI atJ HatI HatJ),
    (Less_in_range result j i atJ atI HatJ HatI),
    (Less_in_range result j k atJ atK HatJ HatK),
    (Less_in_range result i k atI atK HatI HatK).
  rewrite Collate_refl.
  split; [done|]. split; [|split; [|split]].
  - intros [= H]. f_equal. apply Z.ltb_lt in H. apply Z.ltb_ge.
    rewrite (Collate_opp (Key atI) (Key atJ)). lia.
  - intros [= H1] [= H2]. f_equal. apply Z.ltb_lt in H1, H2. apply Z.ltb_lt.
    apply (Collate_lt_le_trans _ (Key atJ)); [done|lia].
  - intros [= H1] [= H2]. f_equal. apply Z.ltb_ge in H1, H2. apply Z.ltb_ge.
    rewrite (Collate_opp (Key atK) (Key atI)).
    rewrite (Collate_opp (Key atJ) (Key atI)) in H1.
    rewrite (Collate_opp (Key atK) (Key atJ)) in H2.
    pose proof (Collate_le_trans (Key atK) (Key atJ) (Key atI)). lia.
  - intros out Hout. apply index_Panic in Hout. unfold Less.
    rewrite Hout, HatI. done.
Qed.

Lemma Less_is_a_strict_weak_order_witness :
  Less (resultOf rows12334) 2 2 = Return false.
Proof.
  exact (proj1 (Less_is_a_strict_weak_order (resultOf rows12334) 2 3 4
                  ltac:(vm_compute; split; (reflexivity || discriminate))
                  ltac:(vm_compute; split; (reflexivity || discriminate))
                  ltac:(vm_compute; split; (reflexivity || discriminate)))).
Defined.

(** ** Further properties: documents and reduction, odd group levels *)

Module DocFacts.

Lemma readOptions_setDocs b params :
  readOptions (setParam "include_docs" (VBool b) params)
  = {| includeDocs := b;
       limit := limit (readOptions params);
       reverse := reverse (readOptions params);
       reduce := reduce (readOptions params) |}.
Proof. rewrite !readOptions_param. cbn [limit reverse reduce]. by reads. Qed.

Lemma rangeOf_setDocs b params :
  rangeOf (setParam "include_docs" (VBool b) params) = rangeOf params.
Proof. unfold rangeOf. by reads. Qed.

Lemma groupLevelOf_setDocs b params :
  groupLevelOf (setParam "include_docs" (VBool b) params) = groupLevelOf params.
Proof. unfold groupLevelOf. by reads. Qed.

(** The scan on rows changed by a function that keeps keys, when the
    reduce function does not see the change. *)
Lemma groupLoop_map (h : ViewRow -> ViewRow) f g rows :
  (forall row, Key (h row) = Key row) ->
  (forall rs, f (map h rs) = f rs) ->
  forall key inRows outRows,
    groupLoop f g (map h rows) key (map h inRows) outRows
    = (st ← groupLoop f g rows key inRows outRows;
       Return (match st with
               | inl (key', inRows', outRows') => inl (key', map h inRows', outRows')
               | inr e => inr e
               end)).
Proof.
  intros Hkey Hf. induction rows as [|row rows IH]; intros key inRows outRows;
    simpl; [done|].
  rewrite Hkey. destruct (groupKey g (Key row)) as [pk|]; simpl; [|done].
  destruct (Collate pk key =? 0).
  - rewrite <- IH. by rewrite map_app.
  - rewrite Hf. destruct (f inRows) as [[outRow|e]|]; simpl; try done.
    by rewrite <- IH.
Qed.

Lemma groupLoop_no_error f g rows :
  (forall rs e, f rs <> Return (inr e)) ->
  forall key inRows outRows e,
    groupLoop f g rows key inRows outRows <> Return (inr e).
Proof.
  intros Hf. induction rows as [|row rows IH]; intros key inRows outRows e;
    simpl; [done|].
  destruct (groupKey g (Key row)) as [pk|]; simpl; [|done].
  destruct (Collate pk key =? 0); [apply IH|].
  destruct (f inRows) as [[outRow|e']|] eqn:Hr; simpl; [apply IH | | done].
  by destruct (Hf inRows e').
Qed.

Lemma count_fun_map (h : ViewRow -> ViewRow) rs : count_fun (map h rs) = count_fun rs.
Proof. unfold count_fun. by rewrite length_map. Qed.

Lemma sum_fun_map (h : ViewRow -> ViewRow) rs :
  (forall row, Value (h row) = Value row) -> sum_fun (map h rs) = sum_fun rs.
Proof.
  intros Hv. unfold sum_fun. f_equal.
  generalize 0. induction rs as [|row rs IH]; intros total; simpl; [done|].
  rewrite Hv. destruct (collationToFloat64 (Value row)); simpl; [apply IH | done].
Qed.

(** A built-in reduction reads keys and values only. *)
Lemma ReduceViewResult_map (h : ViewRow -> ViewRow) name f params result :
  ReduceFunc name = inl f ->
  (forall row, Key (h row) = Key row) ->
  (forall row, Value (h row) = Value row) ->
  ReduceViewResult name params (set_Rows result (map h (Rows result)))
  = ReduceViewResult name params result.
Proof.
  intros Hname Hkey Hval.
  assert (Hf : forall rs, f (map h rs) = f rs).
  { intros rs. destruct (ReduceFunc_cases _ _ Hname) as [[_ ->] | [_ ->]].
    - apply count_fun_map.
    - by apply sum_fun_map. }
  assert (Hno : forall rs e, f rs <> Return (inr e))
    by (by apply (builtin_no_error name)).
  unfold ReduceViewResult. rewrite Hname.
  destruct (groupLevelOf params) as [g|]; [|done].
  cbn -[groupLoop groupKey]. destruct (negb (g =? 0)).
  - destruct (Rows result) as [|row0 rows] eqn:Hrows; [done|].
    cbn -[groupLoop groupKey]. rewrite Hkey.
    destruct (groupKey g (Key row0)) as [key|]; [|done].
    cbn -[groupLoop groupKey].
    pose proof (groupLoop_map h f g (row0 :: rows) Hkey Hf key [] []) as Hloop.
    simpl map in Hloop. rewrite Hloop.
    destruct (groupLoop f g (row0 :: rows) key [] [])
      as [[[[key' inRows] outRows]|e]|] eqn:Hstate; cbn; try done.
    + rewrite Hf. destruct (f inRows) as [[outRow|e]|] eqn:Hr; cbn; try done.
      by destruct (Hno inRows e).
    + by destruct (groupLoop_no_error f g (row0 :: rows) Hno key [] [] e).
  - cbn. rewrite Hf.
    destruct (f (Rows result)) as [[row|e]|] eqn:Hr; cbn; try done.
    by destruct (Hno (Rows result) e).
Qed.

End DocFacts.
Export DocFacts.

(** X23.  Without reduction, [include_docs] changes nothing but the
    documents: when no fetch fails, the rows returned are the rows returned
    without [include_docs], each with its document attached, and
    [TotalRows] is the same. *)
Theorem include_docs_only_adds_documents :
  forall (unmarshal : list Byte.byte -> value) (result : ViewResult)
         (params : Params) (bucket : Bucket) (reduceFunction : string)
         (plain : ViewResult),
    reduce (readOptions params) = false \/ reduceFunction = "" ->
    ProcessViewResult unmarshal result
      (setParam "include_docs" (VBool false) params) bucket reduceFunction
    = Return (plain, None) ->
    Forall (fun row => fetchError bucket row = None) (Rows plain) ->
    ProcessViewResult unmarshal result
      (setParam "include_docs" (VBool true) params) bucket reduceFunction
    = Return (set_Rows plain (map (fetched unmarshal bucket) (Rows plain)), None).
Proof.
  intros unmarshal result params bucket reduceFunction plain Hoff Hplain Hok.
  destruct (rangeOf params) as [[s e] incl] eqn:Hrange.
  destruct (reverse (readOptions params)) eqn:Hrev.
  { unfold ProcessViewResult in Hplain.
    rewrite readOptions_setDocs in Hplain. cbn [reverse] in Hplain.
    by rewrite Hrev in Hplain. }
  rewrite (ProcessViewResult_trims unmarshal result _ bucket reduceFunction
             s e incl) in Hplain;
    [ | by rewrite rangeOf_setDocs | by rewrite readOptions_setDocs
      | by rewrite readOptions_setDocs | by rewrite readOptions_setDocs ].
  rewrite readOptions_setDocs in Hplain. cbn [limit] in Hplain.
  cbv zeta in Hplain. injection Hplain as <-. cbn [Rows] in Hok |- *.
  rewrite (ProcessViewResult_docs unmarshal result _ bucket reduceFunction
             s e incl);
    [ | by rewrite rangeOf_setDocs | by rewrite readOptions_setDocs
      | by rewrite readOptions_setDocs ].
  rewrite readOptions_setDocs. cbn [limit reduce].
  rewrite (inlineDocs_all unmarshal bucket _ Hok).
  rewrite (reduceStage_off _ _ _ _ Hoff). simpl. by rewrite length_map.
Qed.

Lemma include_docs_only_adds_documents_witness :
  ProcessViewResult decode (resultOf rows123)
    (setParam "include_docs" (VBool true) (query [("startkey", VNum 2)]))
    oneDoc ""
  = Return (resultOf [set_Doc (rowK 2) (VObj []); set_Doc (rowK 3) (VObj [])],
            None).
Proof.
  exact (include_docs_only_adds_documents decode (resultOf rows123)
           (query [("startkey", VNum 2)]) oneDoc "" (resultOf [rowK 2; rowK 3])
           (or_intror eq_refl) eq_refl ltac:(repeat constructor)).
Defined.

(** X24.  A built-in reduction reads keys and values only, so with a
    reduction [include_docs] is of no use: when no fetch fails for the rows
    left by the trims, [ProcessViewResult] returns what it returns without
    [include_docs]. *)
Theorem documents_do_not_change_a_reduction :
  forall (unmarshal : list Byte.byte -> value) (result : ViewResult)
         (params : Params) (bucket : Bucket) (name : string) (f : reduceFun)
         (startkey endkey : value) (inclusiveEnd : bool),
    ReduceFunc name = inl f ->
    reduce (readOptions params) = true ->
    rangeOf params = (startkey, endkey, inclusiveEnd) ->
    Forall (fun row => fetchError bucket row = None)
      (trimEnd endkey inclusiveEnd
         (applyLimit (limit (readOptions params))
            (trimStart startkey (Rows result)))) ->
    ProcessViewResult unmarshal result
      (setParam "include_docs" (VBool true) params) bucket name
    = ProcessViewResult unmarshal result
        (setParam "include_docs" (VBool false) params) bucket name.
Proof.
  intros unmarshal result params bucket name f s e incl Hname Hred Hrange Hok.
  destruct (reverse (readOptions params)) eqn:Hrev.
  { unfold ProcessViewResult. rewrite !readOptions_setDocs. cbn [reverse].
    by rewrite Hrev. }
  rewrite (ProcessViewResult_docs unmarshal result _ bucket name s e incl);
    [ | by rewrite rangeOf_setDocs | by rewrite readOptions_setDocs
      | by rewrite readOptions_setDocs ].
  rewrite (ProcessViewResult_reduce unmarshal result _ bucket name s e incl);
    [ | by rewrite rangeOf_setDocs | by rewrite readOptions_setDocs
      | by rewrite readOptions_setDocs ].
  rewrite !readOptions_setDocs. cbn [limit reduce].
  rewrite (inlineDocs_all unmarshal bucket _ Hok).
  unfold reduceStage. rewrite Hred.
  assert (Hne : String.eqb name "" = false).
  { apply String.eqb_neq. intros ->. discriminate Hname. }
  rewrite Hne. cbn [andb negb].
  rewrite !(ReduceViewResult_params name (setParam "include_docs" _ params) params)
    by apply groupLevelOf_setDocs.
  set (kept := trimEnd e incl _).
  pose proof (ReduceViewResult_map (fetched unmarshal bucket) name f params
                (set_Rows result kept) Hname ltac:(done) ltac:(done)) as Hmap.
  cbn [Rows set_Rows] in Hmap.
  change (set_Rows (set_Rows result kept) (map (fetched unmarshal bucket) kept))
    with (set_Rows result (map (fetched unmarshal bucket) kept)) in Hmap.
  by rewrite Hmap.
Qed.

Lemma documents_do_not_change_a_reduction_witness :
  ProcessViewResult decode (resultOf rowsAAB)
    (setParam "include_docs" (VBool true) (query [("group_level", VUint 1)]))
    oneDoc "_count"
  = ProcessViewResult decode (resultOf rowsAAB)
      (setParam "include_docs" (VBool false) (query [("group_level", VUint 1)]))
      oneDoc "_count".
Proof.
  exact (documents_do_not_change_a_reduction decode (resultOf rowsAAB)
           (query [("group_level", VUint 1)]) oneDoc "_count" count_fun
           VNil VNil true eq_refl eq_refl eq_refl ltac:(repeat constructor)).
Defined.

(** X25.  A [group_level] of 2^63 or more becomes a negative [int]:
    2^64 - 1 becomes -1 and groups by the whole key, like [group=true];
    every other such level makes a built-in reduction panic, whatever the
    rows. *)
Theorem huge_group_levels :
  forall (name : string) (f : reduceFun) (params params' : Params)
         (result : ViewResult) (n : Z),
    ReduceFunc name = inl f ->
    param params "group" = VNil \/ param params "group" = VBool false ->
    param params "group_level" = VUint n ->
    2 ^ 63 <= n < 2 ^ 64 ->
    (n = 2 ^ 64 - 1 -> param params' "group" = VBool true ->
     ReduceViewResult name params result = ReduceViewResult name params' result)
    /\ (n < 2 ^ 64 - 1 -> ReduceViewResult name params result = Panic).
Proof.
  intros name f params params' result n Hname Hgroup Hlevel Hn.
  assert (Hg : groupLevelOf params = Return (n - 2 ^ 64)).
  { unfold groupLevelOf. rewrite Hlevel. simpl.
    assert (Hint : int_of_uint64 n = n - 2 ^ 64).
    { unfold int_of_uint64. rewrite Z.mod_small by lia.
      destruct (Z.ltb_spec n (2 ^ 63)); lia. }
    rewrite Hint. by destruct Hgroup as [-> | ->]. }
  split.
  - intros -> Hgroup'. apply ReduceViewResult_params.
    by rewrite Hg, (groupLevelOf_group params' Hgroup').
  - intros Hlt. destruct (Rows result) as [|row0 rows] eqn:Hrows.
    + apply (ReduceViewResult_no_rows name f params result _ Hname Hg);
        [lia | done].
    + apply (ReduceViewResult_unprojectable name f params result _ Hname Hg);
        [lia|].
      rewrite Hrows. apply Exists_cons. left.
      unfold groupKey, keyPrefix.
      destruct (Z.eqb_spec (n - 2 ^ 64) (-1)); [lia|]. simpl.
      destruct (Key row0); try done.
      destruct (Z.leb_spec 0 (n - 2 ^ 64)); [lia|done].
Qed.

Lemma huge_group_levels_witness :
  ReduceViewResult "_count" (query [("group_level", VUint (2 ^ 64 - 1))])
    (resultOf rows12334)
  = ReduceViewResult "_count" (query [("group", VBool true)])
      (resultOf rows12334).
Proof.
  exact (proj1 (huge_group_levels "_count" count_fun
                  (query [("group_level", VUint (2 ^ 64 - 1))])
                  (query [("group", VBool true)]) (resultOf rows12334)
                  (2 ^ 64 - 1) eq_refl (or_introl eq_refl) eq_refl
                  ltac:(lia))
           eq_refl eq_refl).
Defined.
